(** * subfilter: a response-rewriting middleware

    A shallow embedding of [subfilter.go] (package [subfilter], a Traefik
    plugin that rewrites HTTP response bodies with a chain of regular
    expression substitutions) together with theorems about its behaviour.

    Layout of the development:
    - [Http]       header maps and the response sink behind [http.ResponseWriter];
    - [Regexp]     the interface of Go's [regexp] package used by the plugin,
                   and a small backtracking engine as a reference instance;
    - [Gzip]       the interface of [compress/gzip] used by the plugin, and a
                   decoder for gzip members made of stored blocks;
    - the plugin itself: [New], [ServeHTTP] and the methods of
      [responseWriter];
    - the vocabulary of the statements and the requests of the repository's
      tests;
    - the theorems. *)

From Stdlib Require Import ZArith NArith Lia List Bool Ascii String.
From Stdlib Require Import Strings.Byte.
From stdpp Require Import base option list strings gmap fin_maps.

Import ListNotations.
Local Open Scope string_scope.
Local Open Scope list_scope.

(** Go's [[]byte]. *)
Abbreviation bytes := (list Byte.byte).

(** The conversion [[]byte(s)] of a Go string. *)
Definition bytes_of (s : string) : bytes := String.list_byte_of_string s.

(** The conversion [string(b)]. *)
Definition string_of (b : bytes) : string := String.string_of_list_byte b.

(** Go's [error] values are observed through their message. *)
Definition error := string.

(* ================================================================== *)
(** ** Headers and the response sink *)
(* ================================================================== *)

Module Http.

(** [http.Header] is [map[string][]string]. *)
Abbreviation Header := (gmap string (list string)).

Definition is_lower (c : ascii) : bool :=
  let n := nat_of_ascii c in (97 <=? n)%nat && (n <=? 122)%nat.

Definition is_upper (c : ascii) : bool :=
  let n := nat_of_ascii c in (65 <=? n)%nat && (n <=? 90)%nat.

Definition is_digit (c : ascii) : bool :=
  let n := nat_of_ascii c in (48 <=? n)%nat && (n <=? 57)%nat.

Definition to_upper (c : ascii) : ascii :=
  if is_lower c then ascii_of_nat (nat_of_ascii c - 32) else c.

Definition to_lower (c : ascii) : ascii :=
  if is_upper c then ascii_of_nat (nat_of_ascii c + 32) else c.

(** The bytes allowed in a header field name (an RFC 7230 token). *)
Definition validHeaderFieldByte (c : ascii) : bool :=
  is_lower c || is_upper c || is_digit c ||
  existsb (Ascii.eqb c) (list_ascii_of_string "!#$%&'*+-.^_`|~").

Fixpoint canonical_from (upper : bool) (s : string) : string :=
  match s with
  | EmptyString => EmptyString
  | String c s' =>
      let c' := if upper then to_upper c else to_lower c in
      String c' (canonical_from (Ascii.eqb c' "-") s')
  end.

(** [textproto.CanonicalMIMEHeaderKey]: the first letter and every letter
    after a hyphen in upper case, the others in lower case; a key holding a
    byte that is not allowed in a field name is returned as it is. *)
Definition CanonicalMIMEHeaderKey (s : string) : string :=
  if forallb validHeaderFieldByte (list_ascii_of_string s)
  then canonical_from true s else s.

(** [Header.Get]: the first value stored under the canonical key, or the empty string. *)
Definition Get (h : Header) (key : string) : string :=
  match h !! CanonicalMIMEHeaderKey key with
  | Some (v :: _) => v
  | _ => EmptyString
  end.

(** [Header.Set]. *)
Definition Set_ (h : Header) (key value : string) : Header :=
  <[CanonicalMIMEHeaderKey key := [value]]> h.

(** [Header.Add]. *)
Definition Add (h : Header) (key value : string) : Header :=
  <[CanonicalMIMEHeaderKey key :=
      default [] (h !! CanonicalMIMEHeaderKey key) ++ [value]]> h.

(** [Header.Del]. *)
Definition Del (h : Header) (key : string) : Header :=
  delete (CanonicalMIMEHeaderKey key) h.

(** *** The sink behind [http.ResponseWriter]

    [http.ResponseWriter] is an interface; the plugin is handed some value of
    it (the tests hand it an [httptest.ResponseRecorder]).  The sink below
    follows the interface's contract: the header map returned by [Header()]
    is live until the first [WriteHeader], which fixes the status and a
    snapshot of the map; a [Write] or a [Flush] before any [WriteHeader]
    commits status 200 first; later [WriteHeader] calls change nothing.
    It also keeps the list of the calls it has received. *)

Inductive SinkCall :=
| CallWriteHeader (status : Z) (seen : Header)
| CallWrite (p : bytes)
| CallFlush
| CallHijack.

(** What [Hijack()] returns: [(net.Conn, *bufio.ReadWriter, error)]; the
    connection and the buffered reader-writer are opaque handles. *)
Record HijackResult := {
  hj_conn : option nat;
  hj_brw : option nat;
  hj_err : option error
}.

Record Sink := {
  sink_type : string;                     (* the dynamic type, as [%T] prints it *)
  sink_header : Header;                   (* the map [Header()] returns *)
  sink_committed : option (Z * Header);   (* status and headers once committed *)
  sink_body : bytes;                      (* the body bytes received *)
  sink_calls : list SinkCall;             (* the calls received, oldest first *)
  sink_hijacker : option HijackResult;    (* [Some] when the type is an [http.Hijacker] *)
  sink_flusher : bool;                    (* the type is an [http.Flusher] *)
  sink_write_err : option error           (* a connection on which [Write] fails *)
}.

Definition with_header (h : Header) (s : Sink) : Sink :=
  {| sink_type := sink_type s; sink_header := h;
     sink_committed := sink_committed s; sink_body := sink_body s;
     sink_calls := sink_calls s; sink_hijacker := sink_hijacker s;
     sink_flusher := sink_flusher s; sink_write_err := sink_write_err s |}.

Definition with_calls (c : list SinkCall) (s : Sink) : Sink :=
  {| sink_type := sink_type s; sink_header := sink_header s;
     sink_committed := sink_committed s; sink_body := sink_body s;
     sink_calls := c; sink_hijacker := sink_hijacker s;
     sink_flusher := sink_flusher s; sink_write_err := sink_write_err s |}.

Definition with_body (b : bytes) (s : Sink) : Sink :=
  {| sink_type := sink_type s; sink_header := sink_header s;
     sink_committed := sink_committed s; sink_body := b;
     sink_calls := sink_calls s; sink_hijacker := sink_hijacker s;
     sink_flusher := sink_flusher s; sink_write_err := sink_write_err s |}.

(** Fix status and headers unless that has happened already. *)
Definition commit (status : Z) (s : Sink) : Sink :=
  {| sink_type := sink_type s; sink_header := sink_header s;
     sink_committed :=
       match sink_committed s with
       | Some c => Some c
       | None => Some (status, sink_header s)
       end;
     sink_body := sink_body s;
     sink_calls := sink_calls s; sink_hijacker := sink_hijacker s;
     sink_flusher := sink_flusher s; sink_write_err := sink_write_err s |}.

Definition record (c : SinkCall) (s : Sink) : Sink :=
  with_calls (sink_calls s ++ [c]) s.

Definition StatusOK : Z := 200.

(** [ResponseWriter.WriteHeader]. *)
Definition sinkWriteHeader (status : Z) (s : Sink) : Sink :=
  commit status (record (CallWriteHeader status (sink_header s)) s).

(** [ResponseWriter.Write]: [(n, err)]. *)
Definition sinkWrite (p : bytes) (s : Sink) : Sink * (nat * option error) :=
  let s1 := commit StatusOK (record (CallWrite p) s) in
  match sink_write_err s with
  | Some e => (s1, (0%nat, Some e))
  | None => (with_body (sink_body s1 ++ p) s1, (length p, None))
  end.

(** [Flusher.Flush], for a sink that has it. *)
Definition sinkFlush (s : Sink) : Sink :=
  commit StatusOK (record CallFlush s).

(** A sink on which nothing has happened yet. *)
Definition fresh (s : Sink) : Prop :=
  sink_committed s = None /\ sink_body s = [] /\ sink_calls s = [].

(** [httptest.NewRecorder()]: no hijacking, flushing supported. *)
Definition NewRecorder : Sink :=
  {| sink_type := "*httptest.ResponseRecorder"; sink_header := ∅;
     sink_committed := None; sink_body := []; sink_calls := [];
     sink_hijacker := None; sink_flusher := true; sink_write_err := None |}.

(** The headers of the response, as [recorder.Result().Header] gives them:
    the snapshot taken at commit time, or the live map of a response that
    was never committed. *)
Definition ResultHeader (s : Sink) : Header :=
  match sink_committed s with
  | Some (_, h) => h
  | None => sink_header s
  end.

End Http.

(** Go's [(value, error)] results where exactly one of the two is set. *)
Inductive result (A : Type) :=
| Ok (a : A)
| Err (e : error).
Arguments Ok {A} a.
Arguments Err {A} e.

(* ================================================================== *)
(** ** Regular expressions *)
(* ================================================================== *)

(** What the plugin uses of Go's [regexp] package: [regexp.Compile] and
    [Regexp.ReplaceAll]. *)
Class RegexpEngine := {
  Regexp : Type;
  Compile : string -> result Regexp;
  ReplaceAll : Regexp -> bytes -> bytes -> bytes
}.

(** A reference engine for a fragment of Go's syntax: literal ASCII bytes,
    [.], groups [( )], alternation [|], the greedy repetitions [*] [+] [?]
    of an operand that cannot match the empty string, and a backslash before
    punctuation.  On this fragment [Compile] answers as [regexp.Compile]
    does, and matching is leftmost-first, byte by byte, which is what Go does
    on ASCII text.  Syntax outside the fragment is refused by this engine
    with the error [unsupported]. *)
Module Backtrack.

Inductive re :=
| Empty
| Lit (c : byte)
| Any
| Cat (a b : re)
| Alt (a b : re)
| Star (a : re)
| Plus (a : re)
| Quest (a : re)
| Group (n : nat) (a : re).

Record compiled := {
  re_expr : string;     (* the source text *)
  re_ast : re;
  re_numSubexp : nat    (* number of parenthesised groups *)
}.

Fixpoint nullable (r : re) : bool :=
  match r with
  | Empty => true
  | Lit _ | Any => false
  | Cat a b => nullable a && nullable b
  | Alt a b => nullable a || nullable b
  | Star _ | Quest _ => true
  | Plus a => nullable a
  | Group _ a => nullable a
  end.

Definition unsupported : error := "regexp fragment: unsupported syntax".

Definition parse_error (code expr : string) : error :=
  "error parsing regexp: " +:+ code +:+ ": `" +:+ expr +:+ "`".

Definition ErrMissingRepeatArgument := "missing argument to repetition operator".
Definition ErrInvalidRepeatOp := "invalid nested repetition operator".
Definition ErrMissingParen := "missing closing )".
Definition ErrUnexpectedParen := "unexpected )".
Definition ErrTrailingBackslash := "trailing backslash at end of expression".

Definition is_repeat_op (c : byte) : bool :=
  Byte.eqb c "*" || Byte.eqb c "+" || Byte.eqb c "?".

Definition is_punct (c : byte) : bool :=
  let n := Byte.to_N c in
  ((33 <=? n) && (n <=? 47) || (58 <=? n) && (n <=? 64) ||
   (91 <=? n) && (n <=? 96) || (123 <=? n) && (n <=? 126))%N.

Definition is_ascii (c : byte) : bool := (Byte.to_N c <? 128)%N.

(** The parsers return the expression, the rest of the input and the number
    of groups opened so far. *)
Definition parsed := result (re * bytes * nat).

Definition apply_repeat (op : byte) (r : re) : result re :=
  if Byte.eqb op "?" then Ok (Quest r)
  else if nullable r then Err unsupported
  else if Byte.eqb op "*" then Ok (Star r) else Ok (Plus r).

(** The repetition operators after an operand. *)
Definition parse_postfix (r : re) (input : bytes) (ng : nat) : parsed :=
  match input with
  | op :: rest =>
      if is_repeat_op op then
        match rest with
        | op2 :: _ =>
            if Byte.eqb op2 "?" then Err unsupported
            else if is_repeat_op op2
            then Err (parse_error ErrInvalidRepeatOp (string_of [op; op2]))
            else match apply_repeat op r with
                 | Ok r' => Ok (r', rest, ng)
                 | Err e => Err e
                 end
        | [] => match apply_repeat op r with
                | Ok r' => Ok (r', rest, ng)
                | Err e => Err e
                end
        end
      else Ok (r, input, ng)
  | [] => Ok (r, input, ng)
  end.

Fixpoint parse_alt (fuel : nat) (whole : string) (input : bytes) (ng : nat)
  {struct fuel} : parsed :=
  match fuel with
  | O => Err unsupported
  | S fuel' =>
      match parse_cat fuel' whole input ng with
      | Err e => Err e
      | Ok (a, rest, ng1) =>
          match rest with
          | c :: rest' =>
              if Byte.eqb c "|" then
                match parse_alt fuel' whole rest' ng1 with
                | Err e => Err e
                | Ok (b, rest2, ng2) => Ok (Alt a b, rest2, ng2)
                end
              else Ok (a, rest, ng1)
          | [] => Ok (a, rest, ng1)
          end
      end
  end
with parse_cat (fuel : nat) (whole : string) (input : bytes) (ng : nat)
  {struct fuel} : parsed :=
  match fuel with
  | O => Err unsupported
  | S fuel' =>
      match input with
      | [] => Ok (Empty, input, ng)
      | c :: _ =>
          if Byte.eqb c "|" || Byte.eqb c ")" then Ok (Empty, input, ng)
          else
            match parse_atom fuel' whole input ng with
            | Err e => Err e
            | Ok (a, rest, ng1) =>
                match parse_postfix a rest ng1 with
                | Err e => Err e
                | Ok (a', rest1, ng2) =>
                    match parse_cat fuel' whole rest1 ng2 with
                    | Err e => Err e
                    | Ok (Empty, rest2, ng3) => Ok (a', rest2, ng3)
                    | Ok (b, rest2, ng3) => Ok (Cat a' b, rest2, ng3)
                    end
                end
            end
      end
  end
with parse_atom (fuel : nat) (whole : string) (input : bytes) (ng : nat)
  {struct fuel} : parsed :=
  match fuel with
  | O => Err unsupported
  | S fuel' =>
      match input with
      | [] => Err unsupported
      | c :: rest =>
          if Byte.eqb c "(" then
            match rest with
            | q :: _ =>
                if Byte.eqb q "?" then Err unsupported
                else
                  match parse_alt fuel' whole rest (S ng) with
                  | Err e => Err e
                  | Ok (a, rest1, ng1) =>
                      match rest1 with
                      | d :: rest2 =>
                          if Byte.eqb d ")" then Ok (Group (S ng) a, rest2, ng1)
                          else Err (parse_error ErrMissingParen whole)
                      | [] => Err (parse_error ErrMissingParen whole)
                      end
                  end
            | [] => Err (parse_error ErrMissingParen whole)
            end
          else if is_repeat_op c
          then Err (parse_error ErrMissingRepeatArgument (string_of [c]))
          else if Byte.eqb c "." then Ok (Any, rest, ng)
          else if Byte.eqb c "\" then
            match rest with
            | e :: rest1 =>
                if is_punct e then Ok (Lit e, rest1, ng) else Err unsupported
            | [] => Err (parse_error ErrTrailingBackslash EmptyString)
            end
          else if Byte.eqb c "[" || Byte.eqb c "{" || Byte.eqb c "^"
                  || Byte.eqb c "$" || negb (is_ascii c)
          then Err unsupported
          else Ok (Lit c, rest, ng)
      end
  end.

(** [regexp.Compile] on the fragment. *)
Definition Compile (expr : string) : result compiled :=
  let input := bytes_of expr in
  match parse_alt (4 * length input + 4) expr input 0 with
  | Err e => Err e
  | Ok (r, [], ng) => Ok {| re_expr := expr; re_ast := r; re_numSubexp := ng |}
  | Ok (_, _ :: _, _) => Err (parse_error ErrUnexpectedParen expr)
  end.

(** Captures: group number and the positions [start, end) of its text. *)
Definition caps := list (nat * (nat * nat)).

Definition cont := nat -> bytes -> caps -> option (nat * caps).

(** Greedy iteration of [body]; an iteration has to consume input. *)
Definition star_loop (body : nat -> bytes -> caps -> cont -> option (nat * caps))
  (k : cont) : nat -> nat -> bytes -> caps -> option (nat * caps) :=
  fix loop (fuel pos : nat) (s : bytes) (c : caps) {struct fuel} :=
    match fuel with
    | O => k pos s c
    | S fuel' =>
        match body pos s c
                (fun p s' c' => if (pos <? p)%nat then loop fuel' p s' c' else None)
        with
        | Some m => Some m
        | None => k pos s c
        end
    end.

(** Backtracking match of [r] against [s], which starts at position [pos] of
    the subject; [k] receives the position and text after the match.  The
    first alternative that leads to success wins. *)
Fixpoint matchk (r : re) (pos : nat) (s : bytes) (c : caps) (k : cont)
  {struct r} : option (nat * caps) :=
  match r with
  | Empty => k pos s c
  | Lit x =>
      match s with
      | y :: s' => if Byte.eqb x y then k (S pos) s' c else None
      | [] => None
      end
  | Any =>
      match s with
      | y :: s' => if Byte.eqb y Byte.x0a then None else k (S pos) s' c
      | [] => None
      end
  | Cat a b => matchk a pos s c (fun p s' c' => matchk b p s' c' k)
  | Alt a b =>
      match matchk a pos s c k with
      | Some m => Some m
      | None => matchk b pos s c k
      end
  | Quest a =>
      match matchk a pos s c k with
      | Some m => Some m
      | None => k pos s c
      end
  | Star a => star_loop (matchk a) k (length s) pos s c
  | Plus a =>
      matchk a pos s c (fun p s' c' => star_loop (matchk a) k (length s') p s' c')
  | Group n a => matchk a pos s c (fun p s' c' => k p s' ((n, (pos, p)) :: c'))
  end.

(** The leftmost match in [s], the text of the subject from [pos] on:
    start, end and captures. *)
Fixpoint find_from (r : re) (pos : nat) (s : bytes) : option (nat * nat * caps) :=
  match matchk r pos s [] (fun p _ c => Some (p, c)) with
  | Some (e, c) => Some (pos, e, c)
  | None =>
      match s with
      | [] => None
      | _ :: s' => find_from r (S pos) s'
      end
  end.

(** [re.doExecute] on [bsrc] from [searchPos]. *)
Definition doExecute (re : compiled) (bsrc : bytes) (searchPos : nat)
  : option (nat * nat * caps) :=
  find_from (re_ast re) searchPos (drop searchPos bsrc).

(** [bsrc[i:j]]. *)
Definition slice (b : bytes) (i j : nat) : bytes := take (j - i) (drop i b).

Definition is_name_byte (c : byte) : bool :=
  let n := Byte.to_N c in
  ((48 <=? n) && (n <=? 57) || (65 <=? n) && (n <=? 90) ||
   (97 <=? n) && (n <=? 122) || (n =? 95))%N.

Definition is_digit_byte (c : byte) : bool :=
  let n := Byte.to_N c in ((48 <=? n) && (n <=? 57))%N.

Fixpoint span (p : byte -> bool) (b : bytes) : bytes * bytes :=
  match b with
  | c :: b' => if p c then let '(x, y) := span p b' in (c :: x, y) else ([], b)
  | [] => ([], [])
  end.

(** The number a name denotes, [None] for Go's [-1]. *)
Definition name_number (name : bytes) : option nat :=
  let step (acc : option N) (c : byte) : option N :=
    match acc with
    | Some num =>
        if negb (is_digit_byte c) || (100000000 <=? num)%N then None
        else Some (num * 10 + (Byte.to_N c - 48))%N
    | None => None
    end in
  match name with
  | z :: _ :: _ =>
      if Byte.eqb z "0" then None
      else N.to_nat <$> fold_left step name (Some 0%N)
  | _ => N.to_nat <$> fold_left step name (Some 0%N)
  end.

(** [extract]: the name after a [$], its number and the rest of the
    template; [None] when the reference is malformed. *)
Definition extract (str : bytes) : option (bytes * option nat * bytes) :=
  match str with
  | [] => None
  | c :: str' =>
      let brace := Byte.eqb c "{" in
      let str1 := if brace then str' else str in
      let '(name, rest) := span is_name_byte str1 in
      match name with
      | [] => None
      | _ =>
          if brace then
            match rest with
            | d :: rest' =>
                if Byte.eqb d "}" then Some (name, name_number name, rest')
                else None
            | [] => None
            end
          else Some (name, name_number name, rest)
      end
  end.

(** [strings.Cut(template, "$")]. *)
Fixpoint cut_dollar (t : bytes) : option (bytes * bytes) :=
  match t with
  | [] => None
  | c :: t' =>
      if Byte.eqb c "$" then Some ([], t')
      else match cut_dollar t' with
           | Some (before, after) => Some (c :: before, after)
           | None => None
           end
  end.

(** The text of group [num] of the match [a0, a1); the fragment has no
    named groups. *)
Definition group_text (re : compiled) (bsrc : bytes) (a0 a1 : nat) (c : caps)
  (num : option nat) : bytes :=
  match num with
  | None => []
  | Some O => slice bsrc a0 a1
  | Some n =>
      if (n <=? re_numSubexp re)%nat then
        match List.find (fun e => (fst e =? n)%nat) c with
        | Some (_, (i, j)) => slice bsrc i j
        | None => []
        end
      else []
  end.

(** [re.expand]: the replacement template with its group references
    filled in. *)
Fixpoint expand (fuel : nat) (re : compiled) (template bsrc : bytes)
  (a0 a1 : nat) (c : caps) : bytes :=
  match fuel with
  | O => template
  | S fuel' =>
      match cut_dollar template with
      | None => template
      | Some (before, after) =>
          before ++
          match after with
          | d :: after' =>
              if Byte.eqb d "$" then d :: expand fuel' re after' bsrc a0 a1 c
              else
                match extract after with
                | None => Byte.x24 :: expand fuel' re after bsrc a0 a1 c
                | Some (_, num, rest) =>
                    group_text re bsrc a0 a1 c num
                      ++ expand fuel' re rest bsrc a0 a1 c
                end
          | [] => [Byte.x24]
          end
      end
  end.

(** [re.replaceAll]: the loop over the successive matches. *)
Fixpoint replaceAll (fuel : nat) (re : compiled) (bsrc repl : bytes)
  (lastMatchEnd searchPos : nat) (buf : bytes) : bytes :=
  match fuel with
  | O => buf ++ drop lastMatchEnd bsrc
  | S fuel' =>
      if (length bsrc <? searchPos)%nat then buf ++ drop lastMatchEnd bsrc
      else
        match doExecute re bsrc searchPos with
        | None => buf ++ drop lastMatchEnd bsrc
        | Some (a0, a1, c) =>
            let buf1 := buf ++ slice bsrc lastMatchEnd a0 in
            let buf2 :=
              if (lastMatchEnd <? a1)%nat || (a0 =? 0)%nat
              then buf1 ++ expand (S (length repl)) re repl bsrc a0 a1 c
              else buf1 in
            let width := if (searchPos <? length bsrc)%nat then 1%nat else 0%nat in
            let searchPos' :=
              if (a1 <? searchPos + width)%nat then (searchPos + width)%nat
              else if (a1 <? searchPos + 1)%nat then (searchPos + 1)%nat
              else a1 in
            replaceAll fuel' re bsrc repl a1 searchPos' buf2
        end
  end.

(** [Regexp.ReplaceAll]. *)
Definition ReplaceAll (re : compiled) (src repl : bytes) : bytes :=
  replaceAll (length src + 2) re src repl 0 0 [].

End Backtrack.

#[export] Instance backtrack_engine : RegexpEngine := {|
  Regexp := Backtrack.compiled;
  Compile := Backtrack.Compile;
  ReplaceAll := Backtrack.ReplaceAll
|}.

(* ================================================================== *)
(** ** Gzip *)
(* ================================================================== *)

(** What the plugin uses of [compress/gzip]: [gzip.NewReader] on the captured
    bytes, [ioutil.ReadAll] on the reader and the reader's [Close]. *)
Class GzipCodec := {
  gzReader : Type;
  NewReader : bytes -> result gzReader;
  ReadAll : gzReader -> gzReader * result bytes;
  Close : gzReader -> option error
}.

(** A reference decoder for gzip streams (RFC 1952) whose members have no
    optional header field and whose DEFLATE blocks are stored blocks
    (RFC 1951, BTYPE 00), with the CRC-32 and length checks of the trailer.
    Such streams are what a gzip writer produces at compression level 0.
    Members with other header flags or block types are refused by this
    decoder with the error [unsupported]. *)
Module Stored.

Local Open Scope N_scope.

Definition crc_step (crc : N) : N :=
  if N.testbit crc 0 then N.lxor (N.shiftr crc 1) 0xEDB88320 else N.shiftr crc 1.

Definition crc_byte (crc : N) (b : byte) : N :=
  N.iter 8 crc_step (N.lxor crc (Byte.to_N b)).

(** CRC-32 (IEEE 802.3) of a byte sequence. *)
Definition crc32 (data : bytes) : N :=
  N.lxor (fold_left crc_byte data 0xFFFFFFFF) 0xFFFFFFFF.

Definition byte_of_N (n : N) : byte :=
  match Byte.of_N (n mod 256) with
  | Some b => b
  | None => Byte.x00
  end.

(** Little-endian encodings. *)
Definition le16 (n : N) : bytes := [byte_of_N n; byte_of_N (n / 256)].
Definition le32 (n : N) : bytes :=
  [byte_of_N n; byte_of_N (n / 256); byte_of_N (n / 65536); byte_of_N (n / 16777216)].

Definition of_le16 (a b : byte) : N := Byte.to_N a + 256 * Byte.to_N b.
Definition of_le32 (a b c d : byte) : N :=
  Byte.to_N a + 256 * Byte.to_N b + 65536 * Byte.to_N c + 16777216 * Byte.to_N d.

Definition ErrHeader : error := "gzip: invalid header".
Definition ErrChecksum : error := "gzip: invalid checksum".
Definition EOF : error := "EOF".
Definition ErrUnexpectedEOF : error := "unexpected EOF".
Definition CorruptInput : error := "flate: corrupt input".
Definition unsupported : error := "gzip fragment: unsupported member".

(** The ten fixed bytes of a member header; the rest of the input. *)
Definition readHeader (input : bytes) : result bytes :=
  match input with
  | [] => Err EOF
  | id1 :: id2 :: cm :: flg :: _ :: _ :: _ :: _ :: _ :: _ :: rest =>
      if negb (Byte.eqb id1 Byte.x1f && Byte.eqb id2 Byte.x8b && Byte.eqb cm Byte.x08)
      then Err ErrHeader
      else if 1 <? Byte.to_N flg then Err unsupported
      else Ok rest
  | _ => Err ErrUnexpectedEOF
  end.

(** The stored blocks of one member: the data and the input after the
    final block. *)
Fixpoint inflate (fuel : nat) (input : bytes) (out : bytes) : result (bytes * bytes) :=
  match fuel with
  | O => Err ErrUnexpectedEOF
  | S fuel' =>
      match input with
      | hd :: l0 :: l1 :: n0 :: n1 :: rest =>
          if negb (N.land (Byte.to_N hd) 6 =? 0) then Err unsupported
          else
            let len := of_le16 l0 l1 in
            if negb (of_le16 n0 n1 =? 65535 - len) then Err CorruptInput
            else if N.of_nat (length rest) <? len then Err ErrUnexpectedEOF
            else
              let out' := out ++ take (N.to_nat len) rest in
              let rest' := drop (N.to_nat len) rest in
              if N.testbit (Byte.to_N hd) 0 then Ok (out', rest')
              else inflate fuel' rest' out'
      | _ => Err ErrUnexpectedEOF
      end
  end.

(** The members of a stream one after the other, each followed by its
    trailer; [input] starts after the header of the current member. *)
Fixpoint members (fuel : nat) (input : bytes) (out : bytes) : result bytes :=
  match fuel with
  | O => Err ErrUnexpectedEOF
  | S fuel' =>
      match inflate (S (length input)) input [] with
      | Err e => Err e
      | Ok (data, rest) =>
          match rest with
          | c0 :: c1 :: c2 :: c3 :: s0 :: s1 :: s2 :: s3 :: rest' =>
              if negb ((of_le32 c0 c1 c2 c3 =? crc32 data) &&
                       (of_le32 s0 s1 s2 s3 =? N.of_nat (length data) mod 4294967296))
              then Err ErrChecksum
              else
                match rest' with
                | [] => Ok (out ++ data)
                | _ =>
                    match readHeader rest' with
                    | Err e => Err e
                    | Ok next => members fuel' next (out ++ data)
                    end
                end
          | _ => Err ErrUnexpectedEOF
          end
      end
  end.

(** A reader is the input left after the first header. *)
Definition NewReader (input : bytes) : result bytes := readHeader input.

Definition ReadAll (r : bytes) : bytes * result bytes :=
  ([], members (S (length r)) r []).

Definition Close (r : bytes) : option error := None.

(** Decoding in one go. *)
Definition gunzip (input : bytes) : result bytes :=
  match NewReader input with
  | Err e => Err e
  | Ok r => snd (ReadAll r)
  end.

(** One stored block per 65535 bytes of data. *)
Fixpoint blocks (fuel : nat) (data : bytes) : bytes :=
  match fuel with
  | O => []
  | S fuel' =>
      let n := N.of_nat (length data) in
      if n <=? 65535
      then Byte.x01 :: le16 n ++ le16 (65535 - n) ++ data
      else Byte.x00 :: le16 65535 ++ le16 0 ++ take (N.to_nat 65535) data
             ++ blocks fuel' (drop (N.to_nat 65535) data)
  end.

(** The stream a gzip writer produces at compression level 0. *)
Definition gzip (data : bytes) : bytes :=
  [Byte.x1f; Byte.x8b; Byte.x08; Byte.x00; Byte.x00; Byte.x00; Byte.x00;
   Byte.x00; Byte.x00; Byte.xff]
  ++ blocks (S (length data)) data
  ++ le32 (crc32 data) ++ le32 (N.of_nat (length data) mod 4294967296).

End Stored.

#[export] Instance stored_codec : GzipCodec := {|
  gzReader := bytes;
  NewReader := Stored.NewReader;
  ReadAll := Stored.ReadAll;
  Close := Stored.Close
|}.

(* ================================================================== *)
(** ** The plugin *)
(* ================================================================== *)

Import Http.

Definition contentEncodingGzip : string := "gzip".

(** [Filter] holds one filter definition. *)
Record Filter := {
  Regex : string;
  Replacement : string
}.

(** [Config] holds the plugin configuration. *)
Record Config := {
  LastModified : bool;
  Filters : list Filter
}.

(** [CreateConfig]: the zero value [&Config{}]. *)
Definition CreateConfig : Config := {| LastModified := false; Filters := [] |}.

(** The lines the plugin hands to [log.Printf], one constructor per call
    site, with the values that fill the format. *)
Inductive LogEntry :=
| LogCompile (pattern : string) (err : error)  (* error compiling regex %q: %v *)
| LogGzipReader (err : error)                  (* unable to create gzip reader: %v *)
| LogGzipRead (err : error)                    (* unable to read gzipped response: %v *)
| LogGzipClose (err : error)                   (* unable to close gzip reader: %v *)
| LogWriteResponse (err : error)               (* unable to write response: %v *)
| LogWriteModified (err : error).              (* unable to write modified response: %v *)

(** The [responseWriter] struct.  The embedded [http.ResponseWriter] is the
    sink the plugin was called with: [ServeHTTP]'s [w] and this field are the
    same object, so the model keeps the sink here while the capture is alive
    and reads it back afterwards. *)
Record responseWriter := {
  rw_buffer : bytes;
  rw_lastModified : bool;
  rw_wroteHeader : bool;
  rw_encoding : string;
  rw_ResponseWriter : Sink
}.

Definition on_sink (f : Sink -> Sink) (r : responseWriter) : responseWriter :=
  {| rw_buffer := rw_buffer r; rw_lastModified := rw_lastModified r;
     rw_wroteHeader := rw_wroteHeader r; rw_encoding := rw_encoding r;
     rw_ResponseWriter := f (rw_ResponseWriter r) |}.

Definition set_wroteHeader (b : bool) (r : responseWriter) : responseWriter :=
  {| rw_buffer := rw_buffer r; rw_lastModified := rw_lastModified r;
     rw_wroteHeader := b; rw_encoding := rw_encoding r;
     rw_ResponseWriter := rw_ResponseWriter r |}.

Definition set_buffer (b : bytes) (r : responseWriter) : responseWriter :=
  {| rw_buffer := b; rw_lastModified := rw_lastModified r;
     rw_wroteHeader := rw_wroteHeader r; rw_encoding := rw_encoding r;
     rw_ResponseWriter := rw_ResponseWriter r |}.

Definition set_encoding (e : string) (r : responseWriter) : responseWriter :=
  {| rw_buffer := rw_buffer r; rw_lastModified := rw_lastModified r;
     rw_wroteHeader := rw_wroteHeader r; rw_encoding := e;
     rw_ResponseWriter := rw_ResponseWriter r |}.

(** [r.ResponseWriter.Header().Del(key)]. *)
Definition header_Del (key : string) (r : responseWriter) : responseWriter :=
  on_sink (fun w => with_header (Del (sink_header w) key) w) r.

(** [responseWriter.WriteHeader]. *)
Definition WriteHeader (statusCode : Z) (r : responseWriter) : responseWriter :=
  let r := if negb (rw_lastModified r) then header_Del "Last-Modified" r else r in
  let r := set_wroteHeader true r in
  let r := header_Del "Content-Length" r in
  on_sink (sinkWriteHeader statusCode) r.

(** [bytes.Buffer.Write]: appends; the length of [p] and a nil error. *)
Definition Buffer_Write (buffer p : bytes) : bytes * (nat * option error) :=
  (buffer ++ p, (length p, None)).

(** [responseWriter.Write]. *)
Definition Write (p : bytes) (r : responseWriter)
  : responseWriter * (nat * option error) :=
  let r := if negb (rw_wroteHeader r) then WriteHeader StatusOK r else r in
  let '(buffer, res) := Buffer_Write (rw_buffer r) p in
  (set_buffer buffer r, res).

(** [responseWriter.Hijack]. *)
Definition Hijack (r : responseWriter) : responseWriter * HijackResult :=
  match sink_hijacker (rw_ResponseWriter r) with
  | None =>
      (r, {| hj_conn := None; hj_brw := None;
             hj_err := Some (sink_type (rw_ResponseWriter r)
                               +:+ " is not a http.Hijacker") |})
  | Some h => (on_sink (record CallHijack) r, h)
  end.

(** [responseWriter.Flush]. *)
Definition Flush (r : responseWriter) : responseWriter :=
  if sink_flusher (rw_ResponseWriter r) then on_sink sinkFlush r else r.

(** The downstream [http.Handler]: what it does with the response writer it
    is given, as a tree of the operations it performs.  It reaches the header
    map through [Header()] and may read or change it in any way; [Write] and
    [Hijack] hand their results back to it. *)
Inductive Handler :=
| Return
| ReadHeader (k : Header -> Handler)
| UpdateHeader (f : Header -> Header) (k : Handler)
| DoWriteHeader (statusCode : Z) (k : Handler)
| DoWrite (p : bytes) (k : nat * option error -> Handler)
| DoFlush (k : Handler)
| DoHijack (k : HijackResult -> Handler).

(** [w.Header().Set(key, value)] in a handler. *)
Definition SetHeader (key value : string) (k : Handler) : Handler :=
  UpdateHeader (fun h => Set_ h key value) k.

(** [next.ServeHTTP(rw, r)]. *)
Fixpoint serve (h : Handler) (rw : responseWriter) : responseWriter :=
  match h with
  | Return => rw
  | ReadHeader k => serve (k (sink_header (rw_ResponseWriter rw))) rw
  | UpdateHeader f k =>
      serve k (on_sink (fun w => with_header (f (sink_header w)) w) rw)
  | DoWriteHeader statusCode k => serve k (WriteHeader statusCode rw)
  | DoWrite p k => let '(rw', res) := Write p rw in serve (k res) rw'
  | DoFlush k => serve k (Flush rw)
  | DoHijack k => let '(rw', res) := Hijack rw in serve (k res) rw'
  end.

(** [io.Copy(w, &buffer)]: [bytes.Buffer.WriteTo] hands the whole content to
    [w] in one [Write], and calls nothing when the buffer is empty. *)
Definition io_Copy (w : Sink) (buffer : bytes) : Sink * option error :=
  match buffer with
  | [] => (w, None)
  | _ =>
      let '(w', (m, e)) := sinkWrite buffer w in
      match e with
      | Some err => (w', Some err)
      | None => (w', if (m =? length buffer)%nat then None else Some "short write")
      end
  end.

Section Plugin.
Context {engine : RegexpEngine} {codec : GzipCodec}.

(** The compiled [filter]. *)
Record filter := {
  regex : Regexp;
  replacement : bytes
}.

Record subfilter := {
  name : string;
  next : Handler;
  filters : list filter;
  lastModified : bool
}.

(** The loop of [New] over [config.Filters]. *)
Fixpoint compile_filters (fs : list Filter) (filters : list filter)
  (log : list LogEntry) : list filter * list LogEntry :=
  match fs with
  | [] => (filters, log)
  | f :: fs' =>
      match Compile (Regex f) with
      | Err err => compile_filters fs' filters (log ++ [LogCompile (Regex f) err])
      | Ok regex =>
          let newFilter :=
            {| regex := regex; replacement := bytes_of (Replacement f) |} in
          compile_filters fs' (filters ++ [newFilter]) log
      end
  end.

(** [New]: the handler, the error and what was logged. *)
Definition New (next : Handler) (config : Config) (name : string)
  : option subfilter * option error * list LogEntry :=
  let '(filters, log) := compile_filters (Filters config) [] [] in
  if (length filters =? 0)%nat
  then (None, Some "no valid filters. disabling", log)
  else (Some {| name := name; next := next; filters := filters;
                lastModified := LastModified config |}, None, log).

(** The loop of [ServeHTTP] over [s.filters]. *)
Fixpoint apply_filters (fs : list filter) (b : bytes) : bytes :=
  match fs with
  | [] => b
  | f :: fs' => apply_filters fs' (ReplaceAll (regex f) b (replacement f))
  end.

(** The end of [ServeHTTP]: the filters, then the write to [w]. *)
Definition write_modified (s : subfilter) (w : Sink) (b : bytes)
  : Sink * list LogEntry :=
  let b := apply_filters (filters s) b in
  match sinkWrite b w with
  | (w', (_, Some err)) => (w', [LogWriteModified err])
  | (w', (_, None)) => (w', [])
  end.

(** The part of [ServeHTTP] after the downstream handler has returned. *)
Definition after_next (s : subfilter) (rw : responseWriter)
  : Sink * list LogEntry :=
  let w := rw_ResponseWriter rw in
  let ce := Get (sink_header w) "Content-Encoding" in
  if String.eqb ce EmptyString || String.eqb ce "identity" then
    write_modified s w (rw_buffer rw)
  else if String.eqb ce contentEncodingGzip then
    match NewReader (rw_buffer rw) with
    | Err err => (w, [LogGzipReader err])
    | Ok gr =>
        match ReadAll gr with
        | (_, Err err) => (w, [LogGzipRead err])
        | (gr, Ok b) =>
            match Close gr with
            | Some err => (w, [LogGzipClose err])
            | None =>
                let rw := set_encoding contentEncodingGzip rw in
                write_modified s (rw_ResponseWriter rw) b
            end
        end
    end
  else
    match io_Copy w (rw_buffer rw) with
    | (w', Some err) => (w', [LogWriteResponse err])
    | (w', None) => (w', [])
    end.

(** The capture [ServeHTTP] creates around [w]. *)
Definition capture (s : subfilter) (w : Sink) : responseWriter :=
  {| rw_buffer := []; rw_lastModified := lastModified s;
     rw_wroteHeader := false; rw_encoding := EmptyString; rw_ResponseWriter := w |}.

(** [subfilter.ServeHTTP]: the sink afterwards and what was logged. *)
Definition ServeHTTP (s : subfilter) (w : Sink) : Sink * list LogEntry :=
  let rw := capture s w in
  let rw := serve (next s) rw in
  after_next s rw.

End Plugin.

(* ================================================================== *)
(** ** Vocabulary of the statements *)
(* ================================================================== *)

(** The header map the sink sees when the capture's [WriteHeader] reaches it. *)
Definition committed_header (lastModified : bool) (h : Header) : Header :=
  Del (if lastModified then h else Del h "Last-Modified") "Content-Length".

(** A call other than a body write. *)
Definition not_a_write (c : SinkCall) : Prop :=
  match c with
  | CallWrite _ => False
  | _ => True
  end.

(** A sink over a raw connection, which can be hijacked. *)
Definition conn_sink : Sink :=
  {| sink_type := "*http.response"; sink_header := ∅;
     sink_committed := None; sink_body := []; sink_calls := [];
     sink_hijacker := Some {| hj_conn := Some 1%nat; hj_brw := Some 1%nat;
                              hj_err := None |};
     sink_flusher := true; sink_write_err := None |}.

Definition capture_of (lastModified : bool) (w : Sink) : responseWriter :=
  {| rw_buffer := []; rw_lastModified := lastModified;
     rw_wroteHeader := false; rw_encoding := EmptyString; rw_ResponseWriter := w |}.

(** What may happen to a capture while the downstream handler runs: the
    sink's body, its failure mode and the capture's [lastModified] stay as
    they are, the buffer only grows, and the calls the sink receives are
    added at the end and are never body writes. *)
Definition quiet (r r' : responseWriter) : Prop :=
  sink_body (rw_ResponseWriter r') = sink_body (rw_ResponseWriter r) /\
  sink_write_err (rw_ResponseWriter r') = sink_write_err (rw_ResponseWriter r) /\
  rw_lastModified r' = rw_lastModified r /\
  (exists more, rw_buffer r' = rw_buffer r ++ more) /\
  (exists calls,
     sink_calls (rw_ResponseWriter r') = sink_calls (rw_ResponseWriter r) ++ calls /\
     Forall not_a_write calls).

(** The sink was committed through the capture: when the first call it
    received is a [WriteHeader], its status and headers are those of that
    call, and the headers went through the capture's deletions; a sink that
    has received no call is not committed. *)
Definition committed_by_capture (lastModified : bool) (w : Sink) : Prop :=
  match sink_calls w with
  | [] => sink_committed w = None
  | CallWriteHeader statusCode seen :: _ =>
      sink_committed w = Some (statusCode, seen) /\
      exists h : Header, seen = committed_header lastModified h
  | _ :: _ => True
  end.

Section Vocabulary.
Context {engine : RegexpEngine} {codec : GzipCodec}.

(** One substitution: every non-overlapping match of the filter's pattern in
    [b] replaced. *)
Definition substitute (b : bytes) (f : filter) : bytes :=
  ReplaceAll (regex f) b (replacement f).

(** The filter a spec compiles to, if it compiles. *)
Definition compile_one (f : Filter) : option filter :=
  match Compile (Regex f) with
  | Ok re => Some {| regex := re; replacement := bytes_of (Replacement f) |}
  | Err _ => None
  end.

(** The warning a spec causes, if it does not compile. *)
Definition warning_of (f : Filter) : option LogEntry :=
  match Compile (Regex f) with
  | Ok _ => None
  | Err err => Some (LogCompile (Regex f) err)
  end.

(** How decompressing [buffer] fails, as the line that gets logged:
    creating the reader, reading it to the end or closing it. *)
Definition decode_failure (buffer : bytes) : option LogEntry :=
  match NewReader buffer with
  | Err err => Some (LogGzipReader err)
  | Ok gr =>
      match ReadAll gr with
      | (_, Err err) => Some (LogGzipRead err)
      | (gr', Ok _) =>
          match Close gr' with
          | Some err => Some (LogGzipClose err)
          | None => None
          end
      end
  end.

(** The plaintext of a buffer that decompresses. *)
Definition decoded (buffer : bytes) : option bytes :=
  match NewReader buffer with
  | Err _ => None
  | Ok gr =>
      match ReadAll gr with
      | (_, Err _) => None
      | (gr', Ok b) =>
          match Close gr' with
          | Some _ => None
          | None => Some b
          end
      end
  end.

(** The same plugin with another filter chain. *)
Definition with_filters (fs : list filter) (s : subfilter) : subfilter :=
  {| name := name s; next := next s; filters := fs;
     lastModified := lastModified s |}.

End Vocabulary.

(** *** The requests of the repository's tests

    From here on the engine is [backtrack_engine] and the codec is
    [stored_codec]. *)

Definition foo_bar : Filter := {| Regex := "foo"; Replacement := "bar" |}.
Definition bar_foo : Filter := {| Regex := "bar"; Replacement := "foo" |}.
Definition bar_baz : Filter := {| Regex := "bar"; Replacement := "baz" |}.
Definition foo_quux : Filter := {| Regex := "foo"; Replacement := "quux" |}.
Definition star_bar : Filter := {| Regex := "*"; Replacement := "bar" |}.

Definition resBody : bytes := bytes_of "foo is the new bar".

Definition lastModifiedValue : string := "Thu, 02 Jun 2016 06:01:08 GMT".

(** The downstream handler of [TestServeHTTP]: three headers, the status,
    the body. *)
Definition test_next (contentEncoding : string) (body : bytes) : Handler :=
  SetHeader "Content-Encoding" contentEncoding
    (SetHeader "Last-Modified" lastModifiedValue
       (SetHeader "Content-Length" "18"
          (DoWriteHeader StatusOK (DoWrite body (fun _ => Return))))).

(** The body of a test: [New], then [ServeHTTP] on a new recorder. *)
Definition run_test (config : Config) (next : Handler) : option Sink :=
  match New next config "subfilter" with
  | (Some sf, _, _) => Some (fst (ServeHTTP sf NewRecorder))
  | (None, _, _) => None
  end.

(** A handler that sets a length, flushes, then writes the body. *)
Definition flushing_next (body : bytes) : Handler :=
  SetHeader "Content-Length" "18"
    (SetHeader "Last-Modified" lastModifiedValue
       (DoFlush (DoWrite body (fun _ => Return)))).

(** A handler that sets headers and writes no body. *)
Definition silent_next : Handler :=
  SetHeader "Content-Length" "0"
    (SetHeader "Last-Modified" lastModifiedValue Return).

(** A handler that writes a body and sets no header. *)
Definition plain_next (body : bytes) : Handler :=
  DoWrite body (fun _ => Return).

(** The plugin the tests' first request runs: [foo -> bar], then [bar -> foo]. *)
Definition chain_plugin : option subfilter :=
  fst (fst (New (test_next EmptyString resBody)
              {| LastModified := false; Filters := [foo_bar; bar_foo] |}
              "subfilter")).

(** A configuration with one pattern that compiles and one that does not. *)
Definition mixed_config : Config :=
  {| LastModified := false; Filters := [star_bar; foo_bar] |}.

(** The plugin [New] builds in a test from specs that compile. *)
Definition test_plugin (lastModified : bool) (fs : list Filter) (next : Handler)
  : subfilter :=
  {| name := "subfilter"; next := next;
     filters := omap compile_one fs; lastModified := lastModified |}.

(** *** Vocabulary of the further properties *)

(** The bytes a handler passes to [Write], in the order of its calls, when
    it runs against the capture [rw]. *)
Fixpoint written (h : Handler) (rw : responseWriter) : bytes :=
  match h with
  | Return => []
  | ReadHeader k => written (k (sink_header (rw_ResponseWriter rw))) rw
  | UpdateHeader f k =>
      written k (on_sink (fun w => with_header (f (sink_header w)) w) rw)
  | DoWriteHeader statusCode k => written k (WriteHeader statusCode rw)
  | DoWrite p k => p ++ written (k (snd (Write p rw))) (fst (Write p rw))
  | DoFlush k => written k (Flush rw)
  | DoHijack k => written (k (snd (Hijack rw))) (fst (Hijack rw))
  end.

(** On a sink that can neither flush nor be hijacked, the calls of a capture
    start with its [WriteHeader] as soon as the header has been written. *)
Definition header_goes_first (r : responseWriter) : Prop :=
  match sink_calls (rw_ResponseWriter r) with
  | [] => rw_wroteHeader r = false
  | CallWriteHeader _ _ :: _ => True
  | _ :: _ => False
  end.

(** A recorder whose connection refuses every write. *)
Definition closed_conn : Sink :=
  {| sink_type := "*httptest.ResponseRecorder"; sink_header := ∅;
     sink_committed := None; sink_body := []; sink_calls := [];
     sink_hijacker := None; sink_flusher := true;
     sink_write_err := Some "write: broken pipe" |}.

(** A sink with the methods of [http.ResponseWriter] only. *)
Definition bare_sink : Sink :=
  {| sink_type := "*bareWriter"; sink_header := ∅;
     sink_committed := None; sink_body := []; sink_calls := [];
     sink_hijacker := None; sink_flusher := false; sink_write_err := None |}.

(** A handler that sets a content type and a length and writes the body in
    two pieces. *)
Definition chunked_next (p q : bytes) : Handler :=
  SetHeader "Content-Type" "text/plain"
    (SetHeader "Content-Length" "18"
       (DoWrite p (fun _ => DoWrite q (fun _ => Return)))).

(** A filter whose pattern does not occur in the tests' body. *)
Definition baz_foo : Filter := {| Regex := "baz"; Replacement := "foo" |}.

(* ================================================================== *)
(** ** Properties of the capturing writer *)
(* ================================================================== *)

Lemma canonical_Content_Length :
  CanonicalMIMEHeaderKey "Content-Length" = "Content-Length".
Proof. reflexivity. Qed.

Lemma canonical_Last_Modified :
  CanonicalMIMEHeaderKey "Last-Modified" = "Last-Modified".
Proof. reflexivity. Qed.

Lemma Del_lookup_same (h : Header) (key : string) :
  CanonicalMIMEHeaderKey key = key -> Del h key !! key = None.
Proof. intros Hk. unfold Del. rewrite Hk. apply lookup_delete_eq. Qed.

Lemma Del_lookup_other (h : Header) (key other : string) :
  CanonicalMIMEHeaderKey key <> other -> Del h key !! other = h !! other.
Proof. intros Hk. unfold Del. by apply lookup_delete_ne. Qed.

Lemma WriteHeader_sink (statusCode : Z) (r : responseWriter) :
  rw_ResponseWriter (WriteHeader statusCode r) =
  sinkWriteHeader statusCode
    (with_header
       (committed_header (rw_lastModified r) (sink_header (rw_ResponseWriter r)))
       (rw_ResponseWriter r)).
Proof.
  unfold WriteHeader, committed_header.
  destruct r as [b lm wh e w]; destruct lm; reflexivity.
Qed.

Lemma WriteHeader_fields (statusCode : Z) (r : responseWriter) :
  rw_buffer (WriteHeader statusCode r) = rw_buffer r /\
  rw_lastModified (WriteHeader statusCode r) = rw_lastModified r /\
  rw_wroteHeader (WriteHeader statusCode r) = true /\
  rw_encoding (WriteHeader statusCode r) = rw_encoding r.
Proof.
  unfold WriteHeader. destruct r as [b lm wh e w]; destruct lm; repeat split.
Qed.

Lemma WriteHeader_calls (statusCode : Z) (r : responseWriter) :
  sink_calls (rw_ResponseWriter (WriteHeader statusCode r)) =
  sink_calls (rw_ResponseWriter r) ++
  [CallWriteHeader statusCode
     (committed_header (rw_lastModified r) (sink_header (rw_ResponseWriter r)))].
Proof. rewrite WriteHeader_sink. reflexivity. Qed.

Lemma WriteHeader_body (statusCode : Z) (r : responseWriter) :
  sink_body (rw_ResponseWriter (WriteHeader statusCode r)) =
  sink_body (rw_ResponseWriter r).
Proof. rewrite WriteHeader_sink. reflexivity. Qed.

Lemma Write_result (p : bytes) (r : responseWriter) :
  snd (Write p r) = (length p, None).
Proof. unfold Write, Buffer_Write. destruct (negb (rw_wroteHeader r)); reflexivity. Qed.

Lemma Write_buffer (p : bytes) (r : responseWriter) :
  rw_buffer (fst (Write p r)) = rw_buffer r ++ p.
Proof. destruct r as [b lm wh e w]; destruct wh, lm; reflexivity. Qed.

Lemma Write_sink (p : bytes) (r : responseWriter) :
  rw_ResponseWriter (fst (Write p r)) =
  if rw_wroteHeader r then rw_ResponseWriter r
  else rw_ResponseWriter (WriteHeader StatusOK r).
Proof. unfold Write, Buffer_Write. destruct (rw_wroteHeader r); reflexivity. Qed.

Lemma Write_lastModified (p : bytes) (r : responseWriter) :
  rw_lastModified (fst (Write p r)) = rw_lastModified r.
Proof. destruct r as [b lm wh e w]; destruct wh, lm; reflexivity. Qed.

Lemma Write_always_succeeds_aux (p : bytes) (r : responseWriter) :
  rw_buffer (fst (Write p r)) = rw_buffer r ++ p /\
  sink_body (rw_ResponseWriter (fst (Write p r))) = sink_body (rw_ResponseWriter r) /\
  sink_calls (rw_ResponseWriter (fst (Write p r))) =
    sink_calls (rw_ResponseWriter r) ++
    (if rw_wroteHeader r then []
     else [CallWriteHeader StatusOK
             (committed_header (rw_lastModified r)
                (sink_header (rw_ResponseWriter r)))]).
Proof.
  split; [apply Write_buffer|].
  rewrite Write_sink. destruct (rw_wroteHeader r).
  - split; [done|]. by rewrite app_nil_r.
  - split; [apply WriteHeader_body | apply WriteHeader_calls].
Qed.

(** C10. For every byte sequence [p] and every capture, whatever the sink
    behind it (also one whose own [Write] fails), [Write p] returns the
    length of [p] and a nil error and appends [p] to the buffer; the sink
    receives no body byte and no [Write] call from it, at most the
    [WriteHeader(200)] of a first write. *)
Theorem Write_always_succeeds (p : bytes) (r : responseWriter) :
  snd (Write p r) = (length p, None) /\
  rw_buffer (fst (Write p r)) = rw_buffer r ++ p /\
  sink_body (rw_ResponseWriter (fst (Write p r))) = sink_body (rw_ResponseWriter r) /\
  sink_calls (rw_ResponseWriter (fst (Write p r))) =
    sink_calls (rw_ResponseWriter r) ++
    (if rw_wroteHeader r then []
     else [CallWriteHeader StatusOK
             (committed_header (rw_lastModified r)
                (sink_header (rw_ResponseWriter r)))]).
Proof. split; [apply Write_result | apply Write_always_succeeds_aux]. Qed.

(** C9. When the sink behind the capture is not an [http.Hijacker], [Hijack]
    returns no connection, no reader-writer and an error whose text starts
    with the sink's concrete type ([<type> is not a http.Hijacker]), and the
    sink is not touched; when the sink is one, the call goes to the sink and
    its results are returned as they are. *)
Theorem Hijack_forwards_or_fails (r : responseWriter) :
  (sink_hijacker (rw_ResponseWriter r) = None ->
   Hijack r =
     (r, {| hj_conn := None; hj_brw := None;
            hj_err := Some (sink_type (rw_ResponseWriter r)
                              +:+ " is not a http.Hijacker") |})) /\
  (forall h : HijackResult,
     sink_hijacker (rw_ResponseWriter r) = Some h ->
     snd (Hijack r) = h /\
     sink_calls (rw_ResponseWriter (fst (Hijack r))) =
       sink_calls (rw_ResponseWriter r) ++ [CallHijack] /\
     rw_buffer (fst (Hijack r)) = rw_buffer r).
Proof.
  unfold Hijack. split.
  - intros ->. reflexivity.
  - intros h ->. repeat split.
Qed.

Lemma Hijack_forwards_or_fails_witness :
  hj_err (snd (Hijack (capture_of false NewRecorder))) =
    Some "*httptest.ResponseRecorder is not a http.Hijacker" /\
  snd (Hijack (capture_of false conn_sink)) =
    {| hj_conn := Some 1%nat; hj_brw := Some 1%nat; hj_err := None |}.
Proof.
  split.
  - rewrite (proj1 (Hijack_forwards_or_fails (capture_of false NewRecorder)));
      reflexivity.
  - apply (proj2 (Hijack_forwards_or_fails (capture_of false conn_sink))).
    reflexivity.
Defined.

(* ================================================================== *)
(** ** The capture during the downstream handler *)
(* ================================================================== *)

Lemma quiet_refl (r : responseWriter) : quiet r r.
Proof.
  repeat split; try done.
  - exists []. by rewrite app_nil_r.
  - exists []. split; [by rewrite app_nil_r | constructor].
Qed.

Lemma quiet_trans (r1 r2 r3 : responseWriter) :
  quiet r1 r2 -> quiet r2 r3 -> quiet r1 r3.
Proof.
  intros (Hb1 & He1 & Hl1 & [m1 Hm1] & [c1 [Hc1 Hf1]])
         (Hb2 & He2 & Hl2 & [m2 Hm2] & [c2 [Hc2 Hf2]]).
  repeat split; try congruence.
  - exists (m1 ++ m2). rewrite Hm2, Hm1. by rewrite app_assoc.
  - exists (c1 ++ c2). split.
    + rewrite Hc2, Hc1. by rewrite app_assoc.
    + by apply Forall_app.
Qed.

Lemma quiet_header (f : Header -> Header) (r : responseWriter) :
  quiet r (on_sink (fun w => with_header (f (sink_header w)) w) r).
Proof.
  repeat split; try done.
  - exists []. by rewrite app_nil_r.
  - exists []. split; [by rewrite app_nil_r | constructor].
Qed.

Lemma quiet_WriteHeader (statusCode : Z) (r : responseWriter) :
  quiet r (WriteHeader statusCode r).
Proof.
  destruct (WriteHeader_fields statusCode r) as (Hb & Hl & _ & _).
  repeat split.
  - apply WriteHeader_body.
  - rewrite WriteHeader_sink. reflexivity.
  - done.
  - exists []. by rewrite app_nil_r.
  - eexists. split; [apply WriteHeader_calls|]. by repeat constructor.
Qed.

Lemma quiet_Write (p : bytes) (r : responseWriter) :
  quiet r (fst (Write p r)).
Proof.
  destruct (Write_always_succeeds_aux p r) as (Hbuf & Hbody & Hcalls).
  repeat split.
  - done.
  - rewrite Write_sink. destruct (rw_wroteHeader r); [done|].
    rewrite WriteHeader_sink. reflexivity.
  - apply Write_lastModified.
  - by exists p.
  - eexists. split; [apply Hcalls|].
    destruct (rw_wroteHeader r); by repeat constructor.
Qed.

Lemma quiet_Flush (r : responseWriter) : quiet r (Flush r).
Proof.
  unfold Flush. destruct (sink_flusher (rw_ResponseWriter r)); [|apply quiet_refl].
  repeat split; try done.
  - exists []. by rewrite app_nil_r.
  - exists [CallFlush]. split; [done | by repeat constructor].
Qed.

Lemma quiet_Hijack (r : responseWriter) : quiet r (fst (Hijack r)).
Proof.
  unfold Hijack. destruct (sink_hijacker (rw_ResponseWriter r)); [|apply quiet_refl].
  repeat split; try done.
  - exists []. by rewrite app_nil_r.
  - exists [CallHijack]. split; [done | by repeat constructor].
Qed.

Lemma serve_DoWrite (p : bytes) (k : nat * option error -> Handler)
  (r : responseWriter) :
  serve (DoWrite p k) r = serve (k (snd (Write p r))) (fst (Write p r)).
Proof. cbn [serve]. by destruct (Write p r). Qed.

Lemma serve_DoHijack (k : HijackResult -> Handler) (r : responseWriter) :
  serve (DoHijack k) r = serve (k (snd (Hijack r))) (fst (Hijack r)).
Proof. cbn [serve]. by destruct (Hijack r). Qed.

(** Whatever the downstream handler does, the capture stays quiet: no body
    byte and no body write reaches the sink while it runs. *)
Lemma serve_quiet (h : Handler) : forall r : responseWriter, quiet r (serve h r).
Proof.
  induction h as [|k IH|f k IH|statusCode k IH|p k IH|k IH|k IH]; intros r.
  - apply quiet_refl.
  - apply IH.
  - eapply quiet_trans; [apply quiet_header | apply IH].
  - eapply quiet_trans; [apply quiet_WriteHeader | apply IH].
  - rewrite serve_DoWrite.
    eapply quiet_trans; [apply quiet_Write | apply IH].
  - eapply quiet_trans; [apply quiet_Flush | apply IH].
  - rewrite serve_DoHijack.
    eapply quiet_trans; [apply quiet_Hijack | apply IH].
Qed.

(* ================================================================== *)
(** ** The pipeline after the downstream handler *)
(* ================================================================== *)

Section Pipeline.
Context {engine : RegexpEngine} {codec : GzipCodec}.

Lemma apply_filters_fold (fs : list filter) :
  forall b : bytes, apply_filters fs b = fold_left substitute fs b.
Proof. induction fs as [|f fs IH]; intros b; simpl; [done | apply IH]. Qed.

Lemma apply_filters_app (fs1 fs2 : list filter) :
  forall b : bytes,
    apply_filters (fs1 ++ fs2) b = apply_filters fs2 (apply_filters fs1 b).
Proof. induction fs1 as [|f fs1 IH]; intros b; simpl; [done | apply IH]. Qed.

Lemma compile_filters_spec (fs : list Filter) :
  forall (acc : list filter) (log : list LogEntry),
    compile_filters fs acc log =
    (acc ++ omap compile_one fs, log ++ omap warning_of fs).
Proof.
  induction fs as [|f fs IH]; intros acc log; simpl.
  - by rewrite !app_nil_r.
  - unfold compile_one, warning_of at 1.
    destruct (Compile (Regex f)) as [re|err]; rewrite IH.
    + by rewrite <- app_assoc.
    + by rewrite <- app_assoc.
Qed.

Lemma sinkWrite_calls (p : bytes) (w : Sink) :
  sink_calls (fst (sinkWrite p w)) = sink_calls w ++ [CallWrite p].
Proof. unfold sinkWrite. by destruct (sink_write_err w). Qed.

Lemma sinkWrite_body (p : bytes) (w : Sink) :
  sink_write_err w = None -> sink_body (fst (sinkWrite p w)) = sink_body w ++ p.
Proof. unfold sinkWrite. by intros ->. Qed.

Lemma write_modified_calls (s : subfilter) (w : Sink) (b : bytes) :
  sink_calls (fst (write_modified s w b)) =
  sink_calls w ++ [CallWrite (apply_filters (filters s) b)].
Proof.
  unfold write_modified.
  pose proof (sinkWrite_calls (apply_filters (filters s) b) w) as H.
  destruct (sinkWrite _ w) as [w' [n [e|]]]; exact H.
Qed.

Lemma write_modified_body (s : subfilter) (w : Sink) (b : bytes) :
  sink_write_err w = None ->
  sink_body (fst (write_modified s w b)) =
  sink_body w ++ apply_filters (filters s) b.
Proof.
  intros Hw. unfold write_modified.
  pose proof (sinkWrite_body (apply_filters (filters s) b) w Hw) as H.
  destruct (sinkWrite _ w) as [w' [n [e|]]]; exact H.
Qed.

(** The three ways [ServeHTTP] goes on, by the [Content-Encoding] it reads. *)
Lemma after_next_identity (s : subfilter) (rw : responseWriter) :
  let ce := Get (sink_header (rw_ResponseWriter rw)) "Content-Encoding" in
  ce = EmptyString \/ ce = "identity" ->
  after_next s rw = write_modified s (rw_ResponseWriter rw) (rw_buffer rw).
Proof.
  intros ce Hce. unfold after_next. fold ce.
  destruct Hce as [-> | ->]; reflexivity.
Qed.

Lemma after_next_gzip (s : subfilter) (rw : responseWriter) :
  Get (sink_header (rw_ResponseWriter rw)) "Content-Encoding" = "gzip" ->
  after_next s rw =
  match decode_failure (rw_buffer rw), decoded (rw_buffer rw) with
  | Some entry, _ => (rw_ResponseWriter rw, [entry])
  | None, Some b => write_modified s (rw_ResponseWriter rw) b
  | None, None => (rw_ResponseWriter rw, [])
  end.
Proof.
  intros Hce. unfold after_next, decode_failure, decoded. rewrite Hce. simpl.
  destruct (NewReader (rw_buffer rw)) as [gr|err]; [|done].
  destruct (ReadAll gr) as [gr' [b|err]]; [|done].
  destruct (Close gr') as [err|]; done.
Qed.

Lemma after_next_other (s : subfilter) (rw : responseWriter) :
  let ce := Get (sink_header (rw_ResponseWriter rw)) "Content-Encoding" in
  ce <> EmptyString -> ce <> "identity" -> ce <> "gzip" ->
  after_next s rw =
  (fst (io_Copy (rw_ResponseWriter rw) (rw_buffer rw)),
   match snd (io_Copy (rw_ResponseWriter rw) (rw_buffer rw)) with
   | Some err => [LogWriteResponse err]
   | None => []
   end).
Proof.
  intros ce H1 H2 H3. unfold after_next. fold ce.
  apply String.eqb_neq in H1, H2, H3. unfold contentEncodingGzip.
  rewrite H1, H2, H3. simpl.
  by destruct (io_Copy _ _) as [w' [err|]].
Qed.

Lemma io_Copy_sink (w : Sink) (buffer : bytes) :
  buffer <> [] -> fst (io_Copy w buffer) = fst (sinkWrite buffer w).
Proof.
  intros Hb. destruct buffer as [|c buffer]; [done|]. unfold io_Copy.
  by destruct (sinkWrite (c :: buffer) w) as [w' [m [e|]]].
Qed.

Lemma io_Copy_calls (w : Sink) (buffer : bytes) :
  sink_calls (fst (io_Copy w buffer)) =
  sink_calls w ++ match buffer with [] => [] | _ => [CallWrite buffer] end.
Proof.
  destruct buffer as [|c buffer]; simpl; [by rewrite app_nil_r|].
  unfold sinkWrite. by destruct (sink_write_err w).
Qed.

Lemma io_Copy_body (w : Sink) (buffer : bytes) :
  sink_write_err w = None ->
  sink_body (fst (io_Copy w buffer)) = sink_body w ++ buffer.
Proof.
  intros Hw. destruct buffer as [|c buffer]; simpl; [by rewrite app_nil_r|].
  unfold sinkWrite. by rewrite Hw.
Qed.

End Pipeline.

(* ================================================================== *)
(** ** The claims about the filter chain and its construction *)
(* ================================================================== *)

(** C3. For every engine, filter chain and decoded body, the substitution
    loop is the left fold of the single-filter substitutions in declaration
    order, so a chain [fs1 ++ fs2] is [fs1] followed by [fs2] on its result;
    this fold of the decoded body (the captured bytes when the encoding is
    empty or identity, their decompression when it is gzip) is what
    [ServeHTTP] hands to the sink.  With the reference engine, [foo -> bar]
    then [bar -> baz] turns every [foo] and [bar] of the tests' body into
    [baz], although [bar -> baz] alone leaves [foo] alone: the second filter
    matches text the first one introduced. *)
Theorem substitution_is_left_fold :
  (forall (engine : RegexpEngine) (codec : GzipCodec) (s : subfilter) (w : Sink),
     let rw := serve (next s) (capture s w) in
     let ce := Get (sink_header (rw_ResponseWriter rw)) "Content-Encoding" in
     (forall (fs : list filter) (b : bytes),
        apply_filters fs b = fold_left substitute fs b) /\
     (forall (fs1 fs2 : list filter) (b : bytes),
        apply_filters (fs1 ++ fs2) b = apply_filters fs2 (apply_filters fs1 b)) /\
     (forall (f1 f2 : filter) (b : bytes),
        apply_filters [f1; f2] b = substitute (substitute b f1) f2) /\
     (ce = EmptyString \/ ce = "identity" ->
      sink_calls (fst (ServeHTTP s w)) =
      sink_calls (rw_ResponseWriter rw) ++
      [CallWrite (fold_left substitute (filters s) (rw_buffer rw))]) /\
     (forall b : bytes,
        ce = "gzip" -> decoded (rw_buffer rw) = Some b ->
        sink_calls (fst (ServeHTTP s w)) =
        sink_calls (rw_ResponseWriter rw) ++
        [CallWrite (fold_left substitute (filters s) b)])) /\
  (sink_body <$>
     run_test {| LastModified := false; Filters := [foo_bar; bar_baz] |}
       (plain_next resBody) = Some (bytes_of "baz is the new baz") /\
   sink_body <$>
     run_test {| LastModified := false; Filters := [bar_baz] |}
       (plain_next resBody) = Some (bytes_of "foo is the new baz") /\
   sink_body <$>
     run_test {| LastModified := false; Filters := [foo_bar; bar_foo] |}
       (test_next EmptyString resBody) = Some (bytes_of "foo is the new foo")).
Proof.
  split; [|by vm_compute].
  intros engine codec s w rw ce.
  split; [intros; apply apply_filters_fold|].
  split; [intros; apply apply_filters_app|].
  split; [reflexivity|].
  split.
  - intros Hce. unfold ServeHTTP. fold rw.
    rewrite (after_next_identity s rw Hce), write_modified_calls.
    by rewrite apply_filters_fold.
  - intros b Hce Hb. unfold ServeHTTP. fold rw.
    rewrite (after_next_gzip s rw Hce), Hb.
    assert (decode_failure (rw_buffer rw) = None) as ->.
    { unfold decoded in Hb. unfold decode_failure.
      destruct (NewReader (rw_buffer rw)) as [gr|err]; [|done].
      destruct (ReadAll gr) as [gr' [b'|err]]; [|done].
      by destruct (Close gr'). }
    rewrite write_modified_calls. by rewrite apply_filters_fold.
Qed.

Lemma substitution_is_left_fold_witness :
  match chain_plugin with
  | Some s =>
      sink_calls (fst (ServeHTTP s NewRecorder)) =
      sink_calls (rw_ResponseWriter (serve (next s) (capture s NewRecorder))) ++
      [CallWrite (bytes_of "foo is the new foo")]
  | None => False
  end.
Proof.
  destruct chain_plugin as [s|] eqn:Hs; [|discriminate Hs].
  injection Hs as <-.
  destruct (proj1 substitution_is_left_fold backtrack_engine stored_codec
              {| name := "subfilter"; next := test_next EmptyString resBody;
                 filters := omap compile_one [foo_bar; bar_foo];
                 lastModified := false |} NewRecorder)
    as (_ & _ & _ & H & _).
  apply H. left. reflexivity.
Defined.

(** C7. For every engine and configuration, [New] keeps the specs whose
    pattern compiles, in their order, as the filter chain, and logs one
    warning for each of the others; it returns no handler and the error
    [no valid filters. disabling] exactly when no spec compiles, and
    otherwise the handler with that chain and no error.  With the reference
    engine, as with Go's, the lone pattern [*] does not compile, so [New]
    fails. *)
Theorem New_keeps_valid_filters :
  (forall (engine : RegexpEngine) (next : Handler) (config : Config) (name : string),
     let kept := omap compile_one (Filters config) in
     let handler := fst (fst (New next config name)) in
     let err := snd (fst (New next config name)) in
     snd (New next config name) = omap warning_of (Filters config) /\
     (kept = [] -> handler = None /\ err = Some "no valid filters. disabling") /\
     (kept <> [] ->
      handler = Some {| name := name; next := next; filters := kept;
                        lastModified := LastModified config |} /\
      err = None) /\
     (handler = None <->
      forall f : Filter, f ∈ Filters config -> compile_one f = None) /\
     (handler = None <-> err = Some "no valid filters. disabling")) /\
  New Return {| LastModified := false; Filters := [star_bar] |} "subfilter" =
    (None, Some "no valid filters. disabling",
     [LogCompile "*"
        "error parsing regexp: missing argument to repetition operator: `*`"]).
Proof.
  split; [|reflexivity].
  intros engine next config name kept handler err.
  subst handler err. unfold New.
  rewrite compile_filters_spec. simpl. fold kept.
  assert (kept = [] <-> forall f : Filter, f ∈ Filters config -> compile_one f = None)
    as Hnone.
  { subst kept. split.
    - intros Hk f Hf. destruct (compile_one f) as [c|] eqn:Hc; [|done].
      assert (c ∈ omap compile_one (Filters config)) as Hin
        by (apply list_elem_of_omap; eauto).
      rewrite Hk in Hin. by apply elem_of_nil in Hin.
    - intros Hall. destruct (omap compile_one (Filters config)) as [|c l] eqn:Hk; [done|].
      assert (c ∈ omap compile_one (Filters config)) as Hin
        by (rewrite Hk; left).
      apply list_elem_of_omap in Hin as (f & Hf & Hc).
      rewrite (Hall f Hf) in Hc. discriminate. }
  destruct kept as [|c l] eqn:Hk; simpl.
  - split; [done|]. split; [done|]. split; [done|]. split.
    + split; [intros _; by apply Hnone | done].
    + done.
  - split; [done|]. split; [done|]. split; [done|]. split.
    + split; [done | intros H; by apply Hnone in H].
    + done.
Qed.

Lemma New_keeps_valid_filters_witness :
  fst (fst (New Return mixed_config "subfilter")) =
    Some {| name := "subfilter"; next := Return;
            filters := omap compile_one [foo_bar];
            lastModified := false |} /\
  snd (fst (New Return mixed_config "subfilter")) = None.
Proof.
  apply (proj1 New_keeps_valid_filters backtrack_engine Return mixed_config
           "subfilter").
  vm_compute. discriminate.
Defined.

(* ================================================================== *)
(** ** The reference codec *)
(* ================================================================== *)

Section StoredCodec.
Local Open Scope N_scope.

Lemma to_N_byte_of_N (n : N) : Byte.to_N (Stored.byte_of_N n) = n mod 256.
Proof.
  unfold Stored.byte_of_N.
  destruct (Byte.of_N (n mod 256)) as [b|] eqn:Hb.
  - by apply Byte.to_of_N.
  - apply Byte.of_N_None_iff in Hb.
    pose proof (N.mod_upper_bound n 256). lia.
Qed.

Lemma of_le16_le16 (n : N) : n < 65536 -> Stored.of_le16 (Stored.byte_of_N n) (Stored.byte_of_N (n / 256)) = n.
Proof.
  intros Hn. unfold Stored.of_le16. rewrite !to_N_byte_of_N.
  rewrite (N.mod_small (n / 256) 256).
  2:{ apply N.Div0.div_lt_upper_bound. lia. }
  pose proof (N.div_mod n 256). lia.
Qed.

Lemma of_le32_le32 (n : N) : n < 4294967296 ->
  Stored.of_le32 (Stored.byte_of_N n) (Stored.byte_of_N (n / 256)) (Stored.byte_of_N (n / 65536)) (Stored.byte_of_N (n / 16777216)) = n.
Proof.
  intros Hn. unfold Stored.of_le32. rewrite !to_N_byte_of_N.
  rewrite (N.mod_small (n / 16777216) 256).
  2:{ apply N.Div0.div_lt_upper_bound. lia. }
  pose proof (N.div_mod n 256 ltac:(lia)).
  pose proof (N.div_mod (n/256) 256 ltac:(lia)).
  pose proof (N.div_mod (n/256/256) 256 ltac:(lia)).
  rewrite !N.Div0.div_div in *.
  change (256*256) with 65536 in *. change (65536 * 256) with 16777216 in *.
  lia.
Qed.

Lemma lxor_bound (a b : N) (k : N) : a < 2 ^ k -> b < 2 ^ k -> N.lxor a b < 2 ^ k.
Proof.
  intros Ha Hb.
  destruct (N.eq_dec (N.lxor a b) 0) as [->|Hz]; [apply N.neq_0_lt_0; by apply N.pow_nonzero|].
  apply N.log2_lt_pow2; [lia|].
  eapply N.le_lt_trans; [apply N.log2_lxor|].
  destruct (N.eq_dec a 0) as [->|Ha0], (N.eq_dec b 0) as [->|Hb0].
  - done.
  - rewrite N.max_r by (simpl; lia). apply N.log2_lt_pow2; lia.
  - rewrite N.max_l by (simpl; lia). apply N.log2_lt_pow2; lia.
  - apply N.max_lub_lt; apply N.log2_lt_pow2; lia.
Qed.

Lemma crc_step_bound (c : N) : c < 2 ^ 32 -> Stored.crc_step c < 2 ^ 32.
Proof.
  intros Hc. unfold Stored.crc_step.
  assert (N.shiftr c 1 < 2 ^ 32).
  { rewrite N.shiftr_div_pow2. change (2 ^ 1) with 2.
    apply N.Div0.div_lt_upper_bound. lia. }
  destruct (N.testbit c 0); [|done].
  apply lxor_bound; [done|]. by vm_compute.
Qed.

Lemma crc_byte_bound (c : N) (b : byte) : c < 2 ^ 32 -> Stored.crc_byte c b < 2 ^ 32.
Proof.
  intros Hc. unfold Stored.crc_byte.
  apply N.iter_invariant; [intros; by apply crc_step_bound|].
  apply lxor_bound; [done|]. pose proof (Byte.to_N_bounded b). lia.
Qed.

Lemma crc32_bound (data : bytes) : Stored.crc32 data < 4294967296.
Proof.
  change 4294967296 with (2 ^ 32). unfold Stored.crc32.
  apply lxor_bound; [|by vm_compute].
  assert (forall c, c < 2 ^ 32 -> fold_left Stored.crc_byte data c < 2 ^ 32) as H.
  { induction data as [|b data IH]; intros c Hc; simpl; [done|].
    apply IH. by apply crc_byte_bound. }
  apply H. by vm_compute.
Qed.

Lemma inflate_block (fuel : nat) (data rest : bytes) :
  let n := N.of_nat (length data) in
  n <= 65535 ->
  Stored.inflate (S fuel)
    (Byte.x01 :: Stored.le16 n ++ Stored.le16 (65535 - n) ++ data ++ rest) []
  = Ok (data, rest).
Proof.
  intros n Hn. unfold Stored.le16. cbn [app Stored.inflate].
  change ((N.land (Byte.to_N Byte.x01) 6) =? 0) with true.
  change (N.testbit (Byte.to_N Byte.x01) 0) with true.
  rewrite !of_le16_le16 by lia. cbn [negb].
  rewrite N.eqb_refl. cbn [negb].
  assert ((N.of_nat (length (data ++ rest)) <? n) = false) as ->.
  { apply N.ltb_ge. rewrite length_app. subst n. lia. }
  subst n. rewrite Nnat.Nat2N.id.
  by rewrite take_app_length, drop_app_length.
Qed.

(** The decoder undoes the encoder on data that fits one stored block. *)
Lemma gunzip_gzip (data : bytes) :
  N.of_nat (length data) <= 65535 -> Stored.gunzip (Stored.gzip data) = Ok data.
Proof.
  intros HlenN.
  unfold Stored.gunzip, Stored.gzip, Stored.NewReader, Stored.ReadAll.
  cbn [app Stored.readHeader Byte.eqb]. 
  change (Stored.blocks (S (length data)) data) with
    (let n := N.of_nat (length data) in
     if n <=? 65535
     then Byte.x01 :: Stored.le16 n ++ Stored.le16 (65535 - n) ++ data
     else Byte.x00 :: Stored.le16 65535 ++ Stored.le16 0 ++ take (N.to_nat 65535) data
             ++ Stored.blocks (length data) (drop (N.to_nat 65535) data)).
  cbv zeta. rewrite (proj2 (N.leb_le _ _) HlenN).
  change (negb _) with false at 1. cbv iota.
  change (1 <? Byte.to_N Byte.x00) with false. cbv iota. cbn [snd].
  set (r := _ ++ _). cbn [Stored.members].
  subst r.
  rewrite <- !app_comm_cons, <- !(app_assoc (Stored.le16 _)).
  rewrite inflate_block by done.
  unfold Stored.le32 at 1 2. cbn [app].
  rewrite !of_le32_le32.
  - rewrite !N.eqb_refl. reflexivity.
  - apply N.mod_upper_bound. lia.
  - apply crc32_bound.
Qed.

End StoredCodec.

(* ================================================================== *)
(** ** The claims about the encoding gate *)
(* ================================================================== *)

(** C4. For every plugin, sink and downstream handler: when the
    [Content-Encoding] read after the handler is neither empty nor
    [identity] nor [gzip], the sink receives the captured bytes as they are
    (in one write, none when nothing was captured), so its body grows by
    exactly these bytes when its writes succeed, and the outcome does not
    depend on the filter chain: no filter is applied and nothing else is
    done. *)
Theorem unknown_encoding_passthrough
  (engine : RegexpEngine) (codec : GzipCodec) (s : subfilter) (w : Sink) :
  let rw := serve (next s) (capture s w) in
  let ce := Get (sink_header (rw_ResponseWriter rw)) "Content-Encoding" in
  ce <> EmptyString -> ce <> "identity" -> ce <> "gzip" ->
  sink_calls (fst (ServeHTTP s w)) =
    sink_calls (rw_ResponseWriter rw) ++
    match rw_buffer rw with [] => [] | _ => [CallWrite (rw_buffer rw)] end /\
  (sink_write_err w = None ->
   sink_body (fst (ServeHTTP s w)) = sink_body w ++ rw_buffer rw) /\
  (forall fs : list filter, ServeHTTP (with_filters fs s) w = ServeHTTP s w).
Proof.
  intros rw ce H1 H2 H3.
  pose proof (serve_quiet (next s) (capture s w)) as (Hbody & Herr & _).
  fold rw in Hbody, Herr. simpl in Hbody, Herr.
  unfold ServeHTTP. fold rw.
  rewrite (after_next_other s rw H1 H2 H3). simpl.
  split; [apply io_Copy_calls|]. split.
  - intros Hw. rewrite io_Copy_body by congruence. by rewrite Hbody.
  - intros fs.
    change (serve (next (with_filters fs s)) (capture (with_filters fs s) w))
      with rw.
    by rewrite (after_next_other (with_filters fs s) rw H1 H2 H3).
Qed.

Lemma unknown_encoding_passthrough_witness :
  sink_body (fst (ServeHTTP (test_plugin false [foo_bar] (test_next "br" resBody)) NewRecorder))
  = bytes_of "foo is the new bar".
Proof.
  apply (unknown_encoding_passthrough backtrack_engine stored_codec
           (test_plugin false [foo_bar] (test_next "br" resBody)) NewRecorder);
    [discriminate | discriminate | discriminate | reflexivity].
Defined.

(** C8. For every plugin, sink and downstream handler: when the
    [Content-Encoding] read after the handler is [gzip] and the captured
    bytes do not decompress (the reader cannot be created, reading fails or
    closing fails), [ServeHTTP] logs that failure and returns; the sink is
    left as the handler left it, its body is the one it had before the
    request, and no body write has reached it. *)
Theorem failed_decompression_writes_nothing
  (engine : RegexpEngine) (codec : GzipCodec) (s : subfilter) (w : Sink) :
  let rw := serve (next s) (capture s w) in
  forall entry : LogEntry,
    Get (sink_header (rw_ResponseWriter rw)) "Content-Encoding" = "gzip" ->
    decode_failure (rw_buffer rw) = Some entry ->
    ServeHTTP s w = (rw_ResponseWriter rw, [entry]) /\
    sink_body (fst (ServeHTTP s w)) = sink_body w /\
    exists calls : list SinkCall,
      sink_calls (fst (ServeHTTP s w)) = sink_calls w ++ calls /\
      Forall not_a_write calls.
Proof.
  intros rw entry Hce Hfail.
  pose proof (serve_quiet (next s) (capture s w)) as (Hbody & _ & _ & _ & Hcalls).
  fold rw in Hbody, Hcalls. simpl in Hbody, Hcalls.
  unfold ServeHTTP. fold rw.
  rewrite (after_next_gzip s rw Hce), Hfail. simpl.
  split; [done|]. split; [done|]. exact Hcalls.
Qed.

Lemma failed_decompression_writes_nothing_witness :
  ServeHTTP (test_plugin false [foo_bar] (test_next "gzip" resBody)) NewRecorder =
    (rw_ResponseWriter
       (serve (test_next "gzip" resBody)
          (capture (test_plugin false [foo_bar] (test_next "gzip" resBody)) NewRecorder)),
     [LogGzipReader "gzip: invalid header"]) /\
  sink_body
    (fst (ServeHTTP (test_plugin false [foo_bar] (test_next "gzip" resBody)) NewRecorder))
  = [].
Proof.
  destruct (failed_decompression_writes_nothing backtrack_engine stored_codec
              (test_plugin false [foo_bar] (test_next "gzip" resBody)) NewRecorder
              (LogGzipReader "gzip: invalid header"))
    as (H1 & H2 & _); [reflexivity | reflexivity |].
  split; [exact H1 | exact H2].
Defined.

(* ================================================================== *)
(** ** The claims about header commitment *)
(* ================================================================== *)

(** C2 as stated fails: a handler that calls [WriteHeader(404)] and returns
    has committed status 404 on the sink by the time it returns, before
    [ServeHTTP] has looked at the body at all. *)
Lemma commit_is_not_deferred :
  ~ (forall (h : Handler) (lastModified : bool) (w : Sink),
       fresh w ->
       sink_committed (rw_ResponseWriter (serve h (capture_of lastModified w)))
       = None).
Proof.
  intros H.
  specialize (H (DoWriteHeader 404 Return) false NewRecorder).
  discriminate H. by repeat split.
Qed.

(** C2, amended. [WriteHeader] on the capture marks the header as written,
    deletes [Content-Length] (and [Last-Modified] unless [lastModified] is
    set) from the sink's header map and forwards the status to the sink at
    once, on every call, while the downstream handler is still running; a
    sink that was not committed yet is committed by it with that status and
    these headers.  What waits for the handler's return is the body: while
    the handler runs no body write reaches the sink, and afterwards
    [ServeHTTP] makes at most one write. *)
Theorem status_forwarded_body_deferred :
  (forall (statusCode : Z) (r : responseWriter),
     let seen := committed_header (rw_lastModified r)
                   (sink_header (rw_ResponseWriter r)) in
     rw_wroteHeader (WriteHeader statusCode r) = true /\
     sink_calls (rw_ResponseWriter (WriteHeader statusCode r)) =
       sink_calls (rw_ResponseWriter r) ++ [CallWriteHeader statusCode seen] /\
     (sink_committed (rw_ResponseWriter r) = None ->
      sink_committed (rw_ResponseWriter (WriteHeader statusCode r)) =
        Some (statusCode, seen))) /\
  (forall (h : Handler) (r : responseWriter), quiet r (serve h r)) /\
  (forall (engine : RegexpEngine) (codec : GzipCodec) (s : subfilter) (w : Sink),
     exists tail : list SinkCall,
       sink_calls (fst (ServeHTTP s w)) =
         sink_calls (rw_ResponseWriter (serve (next s) (capture s w))) ++ tail /\
       (tail = [] \/ exists b : bytes, tail = [CallWrite b])).
Proof.
  split; [|split].
  - intros statusCode r seen. split; [apply WriteHeader_fields|].
    split; [apply WriteHeader_calls|].
    intros Hc. rewrite WriteHeader_sink. unfold sinkWriteHeader, commit. simpl.
    by rewrite Hc.
  - intros h r. apply serve_quiet.
  - intros engine codec s w. unfold ServeHTTP.
    set (rw := serve (next s) (capture s w)).
    set (ce := Get (sink_header (rw_ResponseWriter rw)) "Content-Encoding").
    destruct (decide (ce = EmptyString \/ ce = "identity")) as [Hid|Hid].
    { rewrite (after_next_identity s rw Hid), write_modified_calls. eauto. }
    destruct (decide (ce = "gzip")) as [Hgz|Hgz].
    { rewrite (after_next_gzip s rw Hgz).
      destruct (decode_failure (rw_buffer rw)) as [entry|].
      - exists []. simpl. rewrite app_nil_r. eauto.
      - destruct (decoded (rw_buffer rw)) as [b|].
        + rewrite write_modified_calls. eauto.
        + exists []. simpl. rewrite app_nil_r. eauto. }
    rewrite (after_next_other s rw); [|tauto|tauto|done]. simpl.
    rewrite io_Copy_calls. destruct (rw_buffer rw); eauto.
Qed.

Lemma status_forwarded_body_deferred_witness :
  sink_committed
    (rw_ResponseWriter (WriteHeader 404 (capture_of false NewRecorder)))
  = Some (404%Z, ∅).
Proof.
  destruct (proj1 status_forwarded_body_deferred 404%Z
              (capture_of false NewRecorder)) as (_ & _ & H).
  rewrite H; reflexivity.
Defined.

Lemma committed_header_Content_Length (lastModified : bool) (h : Header) :
  committed_header lastModified h !! "Content-Length" = None.
Proof. unfold committed_header. by apply Del_lookup_same. Qed.

Lemma committed_header_Last_Modified (lastModified : bool) (h : Header) :
  committed_header lastModified h !! "Last-Modified" =
  if lastModified then h !! "Last-Modified" else None.
Proof.
  unfold committed_header. rewrite Del_lookup_other by done.
  destruct lastModified; [done|]. by apply Del_lookup_same.
Qed.

Lemma committed_by_capture_header (lm : bool) (h : Header) (w : Sink) :
  committed_by_capture lm w -> committed_by_capture lm (with_header h w).
Proof. done. Qed.

Lemma committed_by_capture_body (lm : bool) (b : bytes) (w : Sink) :
  committed_by_capture lm w -> committed_by_capture lm (with_body b w).
Proof. done. Qed.

(** A call that is not the capture's [WriteHeader], with the commitment it
    may cause on the sink. *)
Lemma committed_by_capture_call (lm : bool) (c : SinkCall) (status : Z) (w : Sink) :
  (forall statusCode seen, c <> CallWriteHeader statusCode seen) ->
  committed_by_capture lm w ->
  committed_by_capture lm (commit status (record c w)) /\
  committed_by_capture lm (record c w).
Proof.
  intros Hc. unfold committed_by_capture, commit, record. simpl.
  destruct (sink_calls w) as [|[st seen| | |] cs]; simpl; try done.
  - intros _. destruct c; try done. by destruct (Hc status0 seen).
  - intros [-> Hseen]. done.
Qed.

Lemma committed_by_capture_WriteHeader (statusCode : Z) (r : responseWriter) :
  committed_by_capture (rw_lastModified r) (rw_ResponseWriter r) ->
  committed_by_capture (rw_lastModified r)
    (rw_ResponseWriter (WriteHeader statusCode r)).
Proof.
  rewrite WriteHeader_sink.
  unfold committed_by_capture, sinkWriteHeader, commit, record. simpl.
  destruct (sink_calls (rw_ResponseWriter r)) as [|[st seen| | |] cs]; simpl;
    try done.
  - intros ->. eauto.
  - intros [-> Hseen]. done.
Qed.

Lemma committed_by_capture_Write (p : bytes) (r : responseWriter) :
  committed_by_capture (rw_lastModified r) (rw_ResponseWriter r) ->
  committed_by_capture (rw_lastModified r) (rw_ResponseWriter (fst (Write p r))).
Proof.
  rewrite Write_sink. destruct (rw_wroteHeader r); [done|].
  apply committed_by_capture_WriteHeader.
Qed.

Lemma committed_by_capture_sinkWrite (lm : bool) (p : bytes) (w : Sink) :
  committed_by_capture lm w -> committed_by_capture lm (fst (sinkWrite p w)).
Proof.
  intros H. unfold sinkWrite.
  destruct (sink_write_err w); simpl;
    [|apply committed_by_capture_body];
    by apply committed_by_capture_call.
Qed.

(** The downstream handler keeps a sink committed through the capture so. *)
Lemma serve_committed_by_capture (h : Handler) :
  forall r : responseWriter,
    committed_by_capture (rw_lastModified r) (rw_ResponseWriter r) ->
    committed_by_capture (rw_lastModified r) (rw_ResponseWriter (serve h r)).
Proof.
  induction h as [|k IH|f k IH|statusCode k IH|p k IH|k IH|k IH]; intros r Hr.
  - done.
  - by apply IH.
  - by apply (IH (on_sink _ r)).
  - simpl. destruct (WriteHeader_fields statusCode r) as (_ & Hl & _).
    rewrite <- Hl. apply IH. rewrite Hl.
    by apply committed_by_capture_WriteHeader.
  - rewrite serve_DoWrite. rewrite <- (Write_lastModified p r).
    apply IH. rewrite Write_lastModified.
    by apply committed_by_capture_Write.
  - simpl. unfold Flush.
    destruct (sink_flusher (rw_ResponseWriter r)); [|by apply IH].
    apply (IH (on_sink sinkFlush r)). simpl.
    by apply committed_by_capture_call.
  - rewrite serve_DoHijack. unfold Hijack.
    destruct (sink_hijacker (rw_ResponseWriter r)); simpl; [|by apply IH].
    apply (IH _ (on_sink (record CallHijack) r)). simpl.
    by apply (committed_by_capture_call _ CallHijack 0).
Qed.

Section Commitment.
Context {engine : RegexpEngine} {codec : GzipCodec}.

Lemma write_modified_committed_by_capture (lm : bool) (s : subfilter)
  (w : Sink) (b : bytes) :
  committed_by_capture lm w ->
  committed_by_capture lm (fst (write_modified s w b)).
Proof.
  intros H. unfold write_modified.
  pose proof (committed_by_capture_sinkWrite lm
                (apply_filters (filters s) b) w H) as H'.
  by destruct (sinkWrite _ w) as [w' [n [e|]]].
Qed.

Lemma after_next_committed_by_capture (lm : bool) (s : subfilter)
  (rw : responseWriter) :
  committed_by_capture lm (rw_ResponseWriter rw) ->
  committed_by_capture lm (fst (after_next s rw)).
Proof.
  intros H.
  set (ce := Get (sink_header (rw_ResponseWriter rw)) "Content-Encoding").
  destruct (decide (ce = EmptyString \/ ce = "identity")) as [Hid|Hid].
  { rewrite (after_next_identity s rw Hid).
    by apply write_modified_committed_by_capture. }
  destruct (decide (ce = "gzip")) as [Hgz|Hgz].
  { rewrite (after_next_gzip s rw Hgz).
    destruct (decode_failure (rw_buffer rw)) as [entry|]; [done|].
    destruct (decoded (rw_buffer rw)) as [b|]; [|done].
    by apply write_modified_committed_by_capture. }
  rewrite (after_next_other s rw); [|tauto|tauto|done]. simpl.
  destruct (rw_buffer rw) as [|c b]; [done|].
  rewrite io_Copy_sink by done.
  by apply committed_by_capture_sinkWrite.
Qed.

(** A response whose first call on a new sink is the capture's
    [WriteHeader] has the headers of that call. *)
Lemma ServeHTTP_committed_by_capture (s : subfilter) (w : Sink) :
  committed_by_capture (lastModified s) w ->
  committed_by_capture (lastModified s) (fst (ServeHTTP s w)).
Proof.
  intros H. unfold ServeHTTP.
  apply after_next_committed_by_capture.
  by apply (serve_committed_by_capture (next s) (capture s w)).
Qed.

End Commitment.

(** When the first call a new sink receives is the capture's [WriteHeader],
    the response has the headers of that call, without [Content-Length]. *)
Lemma Content_Length_absent_when_committed_by_capture
  (engine : RegexpEngine) (codec : GzipCodec) (s : subfilter) (w : Sink)
  (statusCode : Z) (seen : Header) :
  fresh w ->
  head (sink_calls (fst (ServeHTTP s w))) = Some (CallWriteHeader statusCode seen) ->
  ResultHeader (fst (ServeHTTP s w)) = seen /\
  seen !! "Content-Length" = None /\
  (lastModified s = false -> seen !! "Last-Modified" = None).
Proof.
  intros (Hc & _ & Hcalls) Hhead.
  assert (committed_by_capture (lastModified s) w) as Hw
    by (unfold committed_by_capture; by rewrite Hcalls).
  apply ServeHTTP_committed_by_capture in Hw.
  unfold committed_by_capture in Hw. unfold ResultHeader.
  destruct (sink_calls (fst (ServeHTTP s w))) as [|c cs]; [done|].
  injection Hhead as ->. destruct Hw as [-> [h ->]].
  split; [done|]. split; [apply committed_header_Content_Length|].
  intros ->. apply committed_header_Last_Modified.
Qed.

(** C6 as stated fails: with [lastModified] set and a handler that sets no
    [Last-Modified] header, the response has none. *)
Lemma Last_Modified_absent_although_configured :
  ~ (forall (s : subfilter) (w : Sink),
       fresh w ->
       (is_Some (ResultHeader (fst (ServeHTTP s w)) !! "Last-Modified")
        <-> lastModified s = true)).
Proof.
  intros H.
  destruct (proj2 (H (test_plugin true [foo_bar] (plain_next resBody)) NewRecorder
                     (conj eq_refl (conj eq_refl eq_refl))) eq_refl)
    as [v Hv].
  vm_compute in Hv. discriminate Hv.
Qed.

(** C6, amended. [WriteHeader] deletes [Last-Modified] unless [lastModified]
    is set, and nothing adds one: when the capture's [WriteHeader] commits
    the sink, the response has a [Last-Modified] header exactly when
    [lastModified] is set and the handler had put one there, unchanged; and
    for every request on a new sink whose first call is that [WriteHeader],
    a plugin without [lastModified] produces a response without
    [Last-Modified]. *)
Theorem Last_Modified_kept_only_on_request :
  (forall (statusCode : Z) (r : responseWriter),
     sink_committed (rw_ResponseWriter r) = None ->
     ResultHeader (rw_ResponseWriter (WriteHeader statusCode r)) !! "Last-Modified"
     = if rw_lastModified r
       then sink_header (rw_ResponseWriter r) !! "Last-Modified"
       else None) /\
  (forall (engine : RegexpEngine) (codec : GzipCodec) (s : subfilter) (w : Sink)
          (statusCode : Z) (seen : Header),
     fresh w ->
     head (sink_calls (fst (ServeHTTP s w))) = Some (CallWriteHeader statusCode seen) ->
     lastModified s = false ->
     ResultHeader (fst (ServeHTTP s w)) !! "Last-Modified" = None).
Proof.
  split.
  - intros statusCode r Hc. rewrite WriteHeader_sink.
    unfold ResultHeader, sinkWriteHeader, commit. simpl. rewrite Hc.
    apply committed_header_Last_Modified.
  - intros engine codec s w statusCode seen Hw Hhead Hlm.
    destruct (Content_Length_absent_when_committed_by_capture
                engine codec s w statusCode seen Hw Hhead) as (-> & _ & H).
    by apply H.
Qed.

Lemma Last_Modified_kept_only_on_request_witness :
  ResultHeader
    (rw_ResponseWriter
       (WriteHeader 200
          (capture_of true
             (with_header (Set_ ∅ "Last-Modified" lastModifiedValue) NewRecorder))))
    !! "Last-Modified" = Some [lastModifiedValue] /\
  ResultHeader
    (fst (ServeHTTP (test_plugin false [foo_bar] (test_next EmptyString resBody))
            NewRecorder)) !! "Last-Modified" = None.
Proof.
  split.
  - rewrite (proj1 Last_Modified_kept_only_on_request); reflexivity.
  - apply (proj2 Last_Modified_kept_only_on_request backtrack_engine stored_codec
             (test_plugin false [foo_bar] (test_next EmptyString resBody))
             NewRecorder 200%Z
             (Set_ ∅ "Content-Encoding" EmptyString)).
    + by repeat split.
    + reflexivity.
    + reflexivity.
Defined.

(** C5 at two requests the plugin can receive.  A handler that sets
    [Content-Length: 18], flushes and then writes the tests' body: the flush
    goes to the sink as it is and commits the headers there, so the response
    keeps [Content-Length: 18] while its rewritten body has 19 bytes.  A
    handler that sets [Content-Length: 0] and writes nothing: the capture's
    [WriteHeader] never runs and the final write commits the headers as they
    are. *)
Theorem Content_Length_survives_flush_and_silence :
  let flushed :=
    fst (ServeHTTP (test_plugin false [foo_quux] (flushing_next resBody))
           NewRecorder) in
  let silent :=
    fst (ServeHTTP (test_plugin false [foo_bar] silent_next) NewRecorder) in
  ResultHeader flushed !! "Content-Length" = Some ["18"] /\
  sink_body flushed = bytes_of "quux is the new bar" /\
  length (sink_body flushed) = 19%nat /\
  ResultHeader flushed !! "Last-Modified" = Some [lastModifiedValue] /\
  ResultHeader silent !! "Content-Length" = Some ["0"] /\
  ResultHeader silent !! "Last-Modified" = Some [lastModifiedValue] /\
  sink_calls silent = [CallWrite []].
Proof. vm_compute. by repeat split. Qed.

(** The gzip branch in general: once the captured bytes have been
    decompressed to [b], the sink's body grows by the substituted plaintext
    itself. *)
Lemma gzip_branch_writes_plaintext
  (engine : RegexpEngine) (codec : GzipCodec) (s : subfilter) (w : Sink)
  (b : bytes) :
  let rw := serve (next s) (capture s w) in
  Get (sink_header (rw_ResponseWriter rw)) "Content-Encoding" = "gzip" ->
  decoded (rw_buffer rw) = Some b ->
  sink_write_err w = None ->
  sink_body (fst (ServeHTTP s w)) = sink_body w ++ apply_filters (filters s) b.
Proof.
  intros rw Hce Hb Hw.
  pose proof (serve_quiet (next s) (capture s w)) as (Hbody & Herr & _).
  fold rw in Hbody, Herr. simpl in Hbody, Herr.
  unfold ServeHTTP. fold rw.
  rewrite (after_next_gzip s rw Hce), Hb.
  assert (decode_failure (rw_buffer rw) = None) as ->.
  { unfold decoded in Hb. unfold decode_failure.
    destruct (NewReader (rw_buffer rw)) as [gr|err]; [|done].
    destruct (ReadAll gr) as [gr' [b'|err]]; [|done].
    by destruct (Close gr'). }
  rewrite write_modified_body by congruence. by rewrite Hbody.
Qed.

(** C1 at the request of the test [should unzip, replace foo by bar, then
    zip]: the handler declares [gzip] and writes the gzip stream of the
    tests' body.  The plugin decompresses and substitutes, then writes the
    substituted plaintext itself; the [Content-Encoding] of the response
    still says [gzip], and what the sink received is not a gzip stream. *)
Theorem gzip_body_is_written_uncompressed :
  let sent := Stored.gzip resBody in
  let w :=
    fst (ServeHTTP (test_plugin false [foo_bar] (test_next "gzip" sent))
           NewRecorder) in
  Stored.gunzip sent = Ok resBody /\
  sink_body w = bytes_of "bar is the new bar" /\
  Get (ResultHeader w) "Content-Encoding" = "gzip" /\
  Stored.gunzip (sink_body w) = Err "gzip: invalid header" /\
  snd (ServeHTTP (test_plugin false [foo_bar] (test_next "gzip" sent)) NewRecorder)
  = [].
Proof. vm_compute. by repeat split. Qed.

(* ================================================================== *)
(** ** Further properties of the capturing writer *)
(* ================================================================== *)

Lemma committed_header_other (lastModified : bool) (h : Header) (key : string) :
  key <> "Content-Length" -> key <> "Last-Modified" ->
  committed_header lastModified h !! key = h !! key.
Proof.
  intros H1 H2. unfold committed_header.
  rewrite Del_lookup_other by (rewrite canonical_Content_Length; congruence).
  destruct lastModified; [done|].
  apply Del_lookup_other. rewrite canonical_Last_Modified. congruence.
Qed.

Lemma committed_header_idemp (lastModified : bool) (h : Header) :
  committed_header lastModified (committed_header lastModified h) =
  committed_header lastModified h.
Proof.
  apply map_eq. intros key.
  destruct (decide (key = "Content-Length")) as [->|H1].
  { by rewrite !committed_header_Content_Length. }
  destruct (decide (key = "Last-Modified")) as [->|H2].
  { rewrite !committed_header_Last_Modified. by destruct lastModified. }
  by rewrite committed_header_other.
Qed.

(** X1. [WriteHeader] changes nothing in the header map but the entries
    [Content-Length] and [Last-Modified]: every other entry is handed to the
    sink as the handler left it, and so is the [Content-Encoding] value that
    [ServeHTTP] reads afterwards. *)
Theorem WriteHeader_keeps_other_headers (statusCode : Z) (r : responseWriter) :
  (forall key : string,
     key <> "Content-Length" -> key <> "Last-Modified" ->
     sink_header (rw_ResponseWriter (WriteHeader statusCode r)) !! key =
     sink_header (rw_ResponseWriter r) !! key) /\
  Get (sink_header (rw_ResponseWriter (WriteHeader statusCode r))) "Content-Encoding"
  = Get (sink_header (rw_ResponseWriter r)) "Content-Encoding".
Proof.
  rewrite WriteHeader_sink. simpl. split.
  - intros key H1 H2. by apply committed_header_other.
  - unfold Get. change (CanonicalMIMEHeaderKey "Content-Encoding")
      with "Content-Encoding".
    by rewrite committed_header_other.
Qed.

Lemma WriteHeader_keeps_other_headers_witness :
  sink_header
    (rw_ResponseWriter
       (WriteHeader 200
          (capture_of false
             (with_header (Set_ (Set_ ∅ "Content-Type" "text/plain")
                             "Content-Length" "18") NewRecorder))))
    !! "Content-Type" = Some ["text/plain"].
Proof.
  rewrite (proj1 (WriteHeader_keeps_other_headers 200
                    (capture_of false
                       (with_header (Set_ (Set_ ∅ "Content-Type" "text/plain")
                                       "Content-Length" "18") NewRecorder))));
    [reflexivity | discriminate | discriminate].
Defined.

(** X2. A second [WriteHeader] finds nothing left to delete: the header map
    after two calls is the map after the first, whatever the two statuses,
    while both calls reach the sink. *)
Theorem WriteHeader_twice (first second : Z) (r : responseWriter) :
  sink_header (rw_ResponseWriter (WriteHeader second (WriteHeader first r))) =
  sink_header (rw_ResponseWriter (WriteHeader first r)) /\
  sink_calls (rw_ResponseWriter (WriteHeader second (WriteHeader first r))) =
  sink_calls (rw_ResponseWriter r) ++
  [CallWriteHeader first
     (committed_header (rw_lastModified r) (sink_header (rw_ResponseWriter r)));
   CallWriteHeader second
     (committed_header (rw_lastModified r) (sink_header (rw_ResponseWriter r)))].
Proof.
  destruct (WriteHeader_fields first r) as (_ & Hl & _).
  assert (sink_header (rw_ResponseWriter (WriteHeader first r)) =
          committed_header (rw_lastModified r) (sink_header (rw_ResponseWriter r)))
    as Hh by (by rewrite WriteHeader_sink).
  split.
  - rewrite (WriteHeader_sink second), Hl, Hh.
    apply committed_header_idemp.
  - rewrite (WriteHeader_calls second), (WriteHeader_calls first), Hl, Hh.
    rewrite committed_header_idemp. by rewrite <- app_assoc.
Qed.

Lemma implicit_header_flag :
  (forall (p : bytes) (r : responseWriter),
     rw_wroteHeader (fst (Write p r)) = true) /\
  (forall (p : bytes) (r : responseWriter),
     rw_wroteHeader r = true ->
     fst (Write p r) = set_buffer (rw_buffer r ++ p) r).
Proof.
  split.
  - intros p r. destruct r as [b lm wh e w]; destruct wh, lm; reflexivity.
  - intros p r Hw. unfold Write, Buffer_Write. by rewrite Hw.
Qed.

(** X3. Once the header has been written, [Write] touches nothing but the
    buffer; every [Write] leaves the header written; and the flag stays set
    for the rest of the downstream handler, whatever it does.  So the
    implicit [WriteHeader(200)] goes to the sink at most once, with the
    first [Write] of a handler that has not called [WriteHeader]. *)
Theorem implicit_header_at_most_once :
  (forall (p : bytes) (r : responseWriter),
     rw_wroteHeader (fst (Write p r)) = true) /\
  (forall (p : bytes) (r : responseWriter),
     rw_wroteHeader r = true ->
     fst (Write p r) = set_buffer (rw_buffer r ++ p) r) /\
  (forall (h : Handler) (r : responseWriter),
     rw_wroteHeader r = true -> rw_wroteHeader (serve h r) = true).
Proof.
  split; [|split].
  - intros p r. destruct r as [b lm wh e w]; destruct wh, lm; reflexivity.
  - intros p r Hw. unfold Write, Buffer_Write. by rewrite Hw.
  - intros h. induction h as [|k IH|f k IH|statusCode k IH|p k IH|k IH|k IH];
      intros r Hr.
    + done.
    + by apply IH.
    + by apply (IH (on_sink _ r)).
    + apply (IH (WriteHeader statusCode r)). apply WriteHeader_fields.
    + rewrite serve_DoWrite. apply IH.
      destruct r as [b lm wh e w]; destruct wh, lm; reflexivity.
    + apply (IH (Flush r)). unfold Flush.
      by destruct (sink_flusher (rw_ResponseWriter r)).
    + rewrite serve_DoHijack. apply IH. unfold Hijack.
      by destruct (sink_hijacker (rw_ResponseWriter r)).
Qed.

Lemma implicit_header_at_most_once_witness :
  sink_calls
    (rw_ResponseWriter
       (fst (Write resBody (fst (Write resBody (capture_of false NewRecorder))))))
  = [CallWriteHeader 200 ∅].
Proof.
  destruct implicit_header_at_most_once as (H1 & H2 & _).
  rewrite (H2 resBody (fst (Write resBody (capture_of false NewRecorder)))
             (H1 resBody (capture_of false NewRecorder))).
  reflexivity.
Defined.

(** X4. The capture does not see how a body is cut into pieces: writing [p]
    and then [q] leaves it, and the sink behind it, in the state that
    writing [p ++ q] at once does. *)
Theorem Write_in_pieces (p q : bytes) (r : responseWriter) :
  fst (Write q (fst (Write p r))) = fst (Write (p ++ q) r).
Proof.
  destruct r as [b lm wh e w]; destruct wh, lm;
    unfold Write, Buffer_Write; simpl; by rewrite <- app_assoc.
Qed.

(** X5. [Flush] never delivers captured bytes: after a [Write] and a
    [Flush] the sink's body is what it was and the bytes are still in the
    buffer; the flush itself goes to a sink that is an [http.Flusher] and
    is dropped by the capture, without any effect, for a sink that is not. *)
Theorem Flush_keeps_the_body_back (p : bytes) (r : responseWriter) :
  sink_body (rw_ResponseWriter (Flush (fst (Write p r)))) =
    sink_body (rw_ResponseWriter r) /\
  rw_buffer (Flush (fst (Write p r))) = rw_buffer r ++ p /\
  (sink_flusher (rw_ResponseWriter r) = false -> Flush r = r) /\
  (sink_flusher (rw_ResponseWriter r) = true ->
   sink_calls (rw_ResponseWriter (Flush r)) =
   sink_calls (rw_ResponseWriter r) ++ [CallFlush]).
Proof.
  split; [|split; [|split]].
  - destruct (quiet_Flush (fst (Write p r))) as (-> & _).
    by destruct (quiet_Write p r) as (-> & _).
  - unfold Flush.
    destruct (sink_flusher (rw_ResponseWriter (fst (Write p r))));
      apply Write_buffer.
  - intros H. unfold Flush. by rewrite H.
  - intros H. unfold Flush. by rewrite H.
Qed.

Lemma Flush_keeps_the_body_back_witness :
  Flush (capture_of false bare_sink) = capture_of false bare_sink /\
  sink_calls (rw_ResponseWriter (Flush (capture_of false NewRecorder)))
  = [CallFlush].
Proof.
  destruct (Flush_keeps_the_body_back [] (capture_of false bare_sink))
    as (_ & _ & H1 & _).
  destruct (Flush_keeps_the_body_back [] (capture_of false NewRecorder))
    as (_ & _ & _ & H2).
  split; [apply H1 | apply H2]; reflexivity.
Defined.

Lemma serve_buffer_written (h : Handler) :
  forall r : responseWriter, rw_buffer (serve h r) = rw_buffer r ++ written h r.
Proof.
  induction h as [|k IH|f k IH|statusCode k IH|p k IH|k IH|k IH]; intros r.
  - simpl. by rewrite app_nil_r.
  - apply IH.
  - apply (IH (on_sink _ r)).
  - simpl. rewrite IH. by destruct (WriteHeader_fields statusCode r) as (-> & _).
  - rewrite serve_DoWrite. cbn [written]. rewrite IH, Write_buffer.
    by rewrite <- app_assoc.
  - simpl. rewrite IH. unfold Flush.
    by destruct (sink_flusher (rw_ResponseWriter r)).
  - rewrite serve_DoHijack. cbn [written]. rewrite IH. unfold Hijack.
    by destruct (sink_hijacker (rw_ResponseWriter r)).
Qed.

(** X6. The buffer holds what the downstream handler wrote, all of it and
    in order: after the handler the buffer is the buffer before followed by
    the bytes of the handler's [Write] calls, whatever else the handler
    did in between; the capture [ServeHTTP] creates starts empty, so there
    the buffer is exactly these bytes. *)
Theorem buffer_is_what_was_written (h : Handler) (r : responseWriter) :
  rw_buffer (serve h r) = rw_buffer r ++ written h r /\
  rw_buffer (serve h (capture_of (rw_lastModified r) (rw_ResponseWriter r)))
  = written h (capture_of (rw_lastModified r) (rw_ResponseWriter r)).
Proof. split; apply serve_buffer_written. Qed.

(* ================================================================== *)
(** ** Further properties of the pipeline *)
(* ================================================================== *)

Section FurtherPipeline.
Context {engine : RegexpEngine} {codec : GzipCodec}.

Lemma write_modified_log (s : subfilter) (w : Sink) (b : bytes) :
  snd (write_modified s w b) =
  match sink_write_err w with
  | Some err => [LogWriteModified err]
  | None => []
  end.
Proof. unfold write_modified, sinkWrite. by destruct (sink_write_err w). Qed.

Lemma write_modified_failed_body (s : subfilter) (w : Sink) (b : bytes) (err : error) :
  sink_write_err w = Some err ->
  sink_body (fst (write_modified s w b)) = sink_body w.
Proof. intros H. unfold write_modified, sinkWrite. by rewrite H. Qed.

Lemma apply_filters_fixed (fs : list filter) (b : bytes) :
  Forall (fun f => substitute b f = b) fs -> apply_filters fs b = b.
Proof.
  induction 1 as [|f fs Hf _ IH]; simpl; [done|].
  unfold substitute in Hf. by rewrite Hf.
Qed.

(** What [ServeHTTP] adds to the calls the sink received from the handler. *)
Lemma after_next_calls (s : subfilter) (rw : responseWriter) :
  exists tail : list SinkCall,
    sink_calls (fst (after_next s rw)) = sink_calls (rw_ResponseWriter rw) ++ tail.
Proof.
  set (ce := Get (sink_header (rw_ResponseWriter rw)) "Content-Encoding").
  destruct (decide (ce = EmptyString \/ ce = "identity")) as [Hid|Hid].
  { rewrite (after_next_identity s rw Hid), write_modified_calls. eauto. }
  destruct (decide (ce = "gzip")) as [Hgz|Hgz].
  { rewrite (after_next_gzip s rw Hgz).
    destruct (decode_failure (rw_buffer rw)) as [entry|].
    - exists []. by rewrite app_nil_r.
    - destruct (decoded (rw_buffer rw)) as [b|].
      + rewrite write_modified_calls. eauto.
      + exists []. by rewrite app_nil_r. }
  rewrite (after_next_other s rw); [|tauto|tauto|done]. simpl.
  rewrite io_Copy_calls. eauto.
Qed.

Lemma ServeHTTP_first_call (s : subfilter) (w : Sink) (c : SinkCall) :
  head (sink_calls (rw_ResponseWriter (serve (next s) (capture s w)))) = Some c ->
  head (sink_calls (fst (ServeHTTP s w))) = Some c.
Proof.
  intros H. unfold ServeHTTP.
  destruct (after_next_calls s (serve (next s) (capture s w))) as [tail ->].
  by destruct (sink_calls (rw_ResponseWriter (serve (next s) (capture s w)))).
Qed.

End FurtherPipeline.

Lemma header_goes_first_WriteHeader (statusCode : Z) (r : responseWriter) :
  header_goes_first r -> header_goes_first (WriteHeader statusCode r).
Proof.
  unfold header_goes_first. rewrite WriteHeader_calls.
  by destruct (sink_calls (rw_ResponseWriter r)) as [|[| | |] cs].
Qed.

Lemma header_goes_first_Write (p : bytes) (r : responseWriter) :
  header_goes_first r -> header_goes_first (fst (Write p r)).
Proof.
  intros Hr. pose proof (header_goes_first_WriteHeader StatusOK r Hr) as HWH.
  unfold header_goes_first in *.
  destruct implicit_header_flag as [Hset Hkeep].
  rewrite Write_sink, Hset.
  destruct (rw_wroteHeader r) eqn:Hw.
  - by destruct (sink_calls (rw_ResponseWriter r)) as [|[| | |] cs].
  - by destruct (sink_calls (rw_ResponseWriter (WriteHeader StatusOK r)))
      as [|[| | |] cs].
Qed.

Lemma Write_capabilities (p : bytes) (r : responseWriter) :
  sink_flusher (rw_ResponseWriter (fst (Write p r))) =
    sink_flusher (rw_ResponseWriter r) /\
  sink_hijacker (rw_ResponseWriter (fst (Write p r))) =
    sink_hijacker (rw_ResponseWriter r).
Proof.
  rewrite Write_sink. destruct (rw_wroteHeader r); [done|].
  by rewrite WriteHeader_sink.
Qed.

(** The capture's [WriteHeader] is the first call on a sink that can neither
    flush nor be hijacked, and it stays so while the handler runs. *)
Lemma serve_header_goes_first (h : Handler) :
  forall r : responseWriter,
    sink_flusher (rw_ResponseWriter r) = false ->
    sink_hijacker (rw_ResponseWriter r) = None ->
    header_goes_first r ->
    header_goes_first (serve h r).
Proof.
  induction h as [|k IH|f k IH|statusCode k IH|p k IH|k IH|k IH];
    intros r Hf Hh Hr.
  - done.
  - by apply IH.
  - by apply (IH (on_sink _ r)).
  - apply (IH (WriteHeader statusCode r)).
    + by rewrite WriteHeader_sink.
    + by rewrite WriteHeader_sink.
    + by apply header_goes_first_WriteHeader.
  - rewrite serve_DoWrite. destruct (Write_capabilities p r) as [Hf' Hh'].
    apply IH; [congruence | congruence | by apply header_goes_first_Write].
  - simpl. unfold Flush. rewrite Hf. by apply IH.
  - rewrite serve_DoHijack. unfold Hijack. rewrite Hh. by apply IH.
Qed.

(** X7. The response body for an empty or [identity] encoding, end to end:
    on a sink whose writes succeed, the body grows by the filter chain
    applied to the concatenation of everything the downstream handler
    wrote, and nothing is logged. *)
Theorem identity_response_body
  (engine : RegexpEngine) (codec : GzipCodec) (s : subfilter) (w : Sink) :
  let rw := serve (next s) (capture s w) in
  let ce := Get (sink_header (rw_ResponseWriter rw)) "Content-Encoding" in
  ce = EmptyString \/ ce = "identity" ->
  sink_write_err w = None ->
  sink_body (fst (ServeHTTP s w)) =
    sink_body w ++ apply_filters (filters s) (written (next s) (capture s w)) /\
  snd (ServeHTTP s w) = [].
Proof.
  intros rw ce Hce Hw.
  pose proof (serve_quiet (next s) (capture s w)) as (Hbody & Herr & _).
  fold rw in Hbody, Herr. simpl in Hbody, Herr.
  assert (rw_buffer rw = written (next s) (capture s w)) as Hbuf
    by apply (serve_buffer_written (next s) (capture s w)).
  unfold ServeHTTP. fold rw. rewrite (after_next_identity s rw Hce).
  rewrite write_modified_log, write_modified_body by congruence.
  rewrite Hbody, Hbuf, Herr, Hw. done.
Qed.

Lemma identity_response_body_witness :
  sink_body
    (fst (ServeHTTP
            (test_plugin false [foo_bar]
               (chunked_next (bytes_of "foo is ") (bytes_of "the new bar")))
            NewRecorder))
  = bytes_of "bar is the new bar".
Proof.
  destruct (identity_response_body backtrack_engine stored_codec
              (test_plugin false [foo_bar]
                 (chunked_next (bytes_of "foo is ") (bytes_of "the new bar")))
              NewRecorder) as [H _].
  - left. reflexivity.
  - reflexivity.
  - rewrite H. reflexivity.
Defined.

(** X8. When no filter of the chain changes the captured body, a response
    with an empty or [identity] encoding hands the sink the captured bytes
    themselves. *)
Theorem body_unchanged_when_no_filter_applies
  (engine : RegexpEngine) (codec : GzipCodec) (s : subfilter) (w : Sink) :
  let rw := serve (next s) (capture s w) in
  let ce := Get (sink_header (rw_ResponseWriter rw)) "Content-Encoding" in
  ce = EmptyString \/ ce = "identity" ->
  Forall (fun f => substitute (rw_buffer rw) f = rw_buffer rw) (filters s) ->
  sink_calls (fst (ServeHTTP s w)) =
  sink_calls (rw_ResponseWriter rw) ++ [CallWrite (rw_buffer rw)].
Proof.
  intros rw ce Hce Hfix. unfold ServeHTTP. fold rw.
  rewrite (after_next_identity s rw Hce), write_modified_calls.
  by rewrite apply_filters_fixed.
Qed.

Lemma body_unchanged_when_no_filter_applies_witness :
  sink_calls
    (fst (ServeHTTP (test_plugin false [baz_foo] (plain_next resBody)) NewRecorder))
  = [CallWriteHeader 200 ∅; CallWrite (bytes_of "foo is the new bar")].
Proof.
  apply (body_unchanged_when_no_filter_applies backtrack_engine stored_codec
           (test_plugin false [baz_foo] (plain_next resBody)) NewRecorder).
  - left. reflexivity.
  - repeat constructor.
Defined.

(** X9. A sink whose [Write] fails: [ServeHTTP] makes its one write, logs
    the error of that write and stops; nothing is tried again and the
    sink's body stays as it was.  This holds for the write of the filtered
    body and for the write of a passed-through body alike. *)
Theorem sink_write_failure_is_logged
  (engine : RegexpEngine) (codec : GzipCodec) (s : subfilter) (w : Sink)
  (err : error) :
  let rw := serve (next s) (capture s w) in
  let ce := Get (sink_header (rw_ResponseWriter rw)) "Content-Encoding" in
  sink_write_err w = Some err ->
  sink_body (fst (ServeHTTP s w)) = sink_body w /\
  (ce = EmptyString \/ ce = "identity" ->
   snd (ServeHTTP s w) = [LogWriteModified err] /\
   sink_calls (fst (ServeHTTP s w)) =
     sink_calls (rw_ResponseWriter rw) ++
     [CallWrite (apply_filters (filters s) (rw_buffer rw))]) /\
  (ce <> EmptyString -> ce <> "identity" -> ce <> "gzip" -> rw_buffer rw <> [] ->
   snd (ServeHTTP s w) = [LogWriteResponse err] /\
   sink_calls (fst (ServeHTTP s w)) =
     sink_calls (rw_ResponseWriter rw) ++ [CallWrite (rw_buffer rw)]).
Proof.
  intros rw ce Hw.
  pose proof (serve_quiet (next s) (capture s w)) as (Hbody & Herr & _).
  fold rw in Hbody, Herr. simpl in Hbody, Herr. rewrite Hw in Herr.
  unfold ServeHTTP. fold rw. split; [|split].
  - destruct (decide (ce = EmptyString \/ ce = "identity")) as [Hid|Hid].
    { rewrite (after_next_identity s rw Hid).
      by rewrite (write_modified_failed_body _ _ _ err). }
    destruct (decide (ce = "gzip")) as [Hgz|Hgz].
    { rewrite (after_next_gzip s rw Hgz).
      destruct (decode_failure (rw_buffer rw)) as [entry|]; [done|].
      destruct (decoded (rw_buffer rw)) as [b|]; [|done].
      by rewrite (write_modified_failed_body _ _ _ err). }
    rewrite (after_next_other s rw); [|tauto|tauto|done]. simpl.
    destruct (rw_buffer rw) as [|c b]; [done|].
    rewrite io_Copy_sink by done. unfold sinkWrite. by rewrite Herr.
  - intros Hid. rewrite (after_next_identity s rw Hid).
    rewrite write_modified_log, Herr. split; [done | apply write_modified_calls].
  - intros H1 H2 H3 Hb. rewrite (after_next_other s rw H1 H2 H3). simpl.
    rewrite io_Copy_calls.
    destruct (rw_buffer rw) as [|c b]; [done|]. split; [|done].
    unfold io_Copy, sinkWrite. by rewrite Herr.
Qed.

Lemma sink_write_failure_is_logged_witness :
  snd (ServeHTTP (test_plugin false [foo_bar] (test_next EmptyString resBody))
         closed_conn) = [LogWriteModified "write: broken pipe"] /\
  snd (ServeHTTP (test_plugin false [foo_bar] (test_next "br" resBody))
         closed_conn) = [LogWriteResponse "write: broken pipe"].
Proof.
  destruct (sink_write_failure_is_logged backtrack_engine stored_codec
              (test_plugin false [foo_bar] (test_next EmptyString resBody))
              closed_conn "write: broken pipe" eq_refl) as (_ & H1 & _).
  destruct (sink_write_failure_is_logged backtrack_engine stored_codec
              (test_plugin false [foo_bar] (test_next "br" resBody))
              closed_conn "write: broken pipe" eq_refl) as (_ & _ & H2).
  split.
  - apply H1. left. reflexivity.
  - apply H2; discriminate.
Defined.



(** X11. On a new sink that can neither flush nor be hijacked, every response
    for which the downstream handler called [WriteHeader] or [Write] is
    committed without a [Content-Length] header, and without a
    [Last-Modified] header when [lastModified] is not set. *)
Theorem Content_Length_deleted_when_handler_writes
  (engine : RegexpEngine) (codec : GzipCodec) (s : subfilter) (w : Sink) :
  fresh w ->
  sink_flusher w = false ->
  sink_hijacker w = None ->
  rw_wroteHeader (serve (next s) (capture s w)) = true ->
  is_Some (sink_committed (fst (ServeHTTP s w))) /\
  ResultHeader (fst (ServeHTTP s w)) !! "Content-Length" = None /\
  (lastModified s = false ->
   ResultHeader (fst (ServeHTTP s w)) !! "Last-Modified" = None).
Proof.
  intros Hfresh Hf Hh Hw.
  assert (header_goes_first (serve (next s) (capture s w))) as Hfirst.
  { apply serve_header_goes_first; [done | done |].
    unfold header_goes_first. simpl. by destruct Hfresh as (_ & _ & ->). }
  unfold header_goes_first in Hfirst.
  destruct (sink_calls (rw_ResponseWriter (serve (next s) (capture s w))))
    as [|[statusCode seen| | |] cs] eqn:Hcalls; try done; [congruence|].
  assert (head (sink_calls (fst (ServeHTTP s w))) =
          Some (CallWriteHeader statusCode seen)) as Hhead
    by (apply ServeHTTP_first_call; by rewrite Hcalls).
  destruct (Content_Length_absent_when_committed_by_capture
              engine codec s w statusCode seen Hfresh Hhead) as (HR & HCL & HLM).
  rewrite HR. split; [|by split].
  assert (committed_by_capture (lastModified s) w) as Hcbc.
  { destruct Hfresh as (? & _ & Hc0). unfold committed_by_capture. by rewrite Hc0. }
  apply ServeHTTP_committed_by_capture in Hcbc.
  unfold committed_by_capture in Hcbc.
  destruct (sink_calls (fst (ServeHTTP s w))) as [|c cs']; [done|].
  injection Hhead as ->. destruct Hcbc as [-> _]. eauto.
Qed.

Lemma Content_Length_deleted_when_handler_writes_witness :
  ResultHeader
    (fst (ServeHTTP
            (test_plugin false [foo_bar]
               (chunked_next (bytes_of "foo is ") (bytes_of "the new bar")))
            bare_sink)) !! "Content-Length" = None.
Proof.
  apply (Content_Length_deleted_when_handler_writes backtrack_engine stored_codec
           (test_plugin false [foo_bar]
              (chunked_next (bytes_of "foo is ") (bytes_of "the new bar")))
           bare_sink); [by repeat split | reflexivity..].
Defined.

(* ================================================================== *)
(** ** Further properties of the construction *)
(* ================================================================== *)

Lemma kept_or_warned (engine : RegexpEngine) (fs : list Filter) :
  (length (omap compile_one fs) + length (omap warning_of fs) = length fs)%nat.
Proof.
  induction fs as [|f fs IH]; [done|].
  change (omap compile_one (f :: fs)) with
    (match compile_one f with
     | Some c => c :: omap compile_one fs
     | None => omap compile_one fs
     end).
  change (omap warning_of (f :: fs)) with
    (match warning_of f with
     | Some l => l :: omap warning_of fs
     | None => omap warning_of fs
     end).
  unfold compile_one at 1, warning_of at 1.
  destruct (Compile (Regex f)); cbn [length]; lia.
Qed.

(** X12. [New] accounts for every configured spec: each one ends up either
    as a filter of the chain or as a logged warning, never both and never
    neither, so the filters of the handler and the warnings together are as
    many as the specs. *)
Theorem New_accounts_for_every_spec
  (engine : RegexpEngine) (next : Handler) (config : Config) (name : string) :
  match fst (fst (New next config name)) with
  | Some s =>
      (length (filters s) + length (snd (New next config name))
       = length (Filters config))%nat
  | None =>
      length (snd (New next config name)) = length (Filters config)
  end.
Proof.
  pose proof (kept_or_warned engine (Filters config)) as H.
  unfold New. rewrite compile_filters_spec. simpl.
  destruct (omap compile_one (Filters config)) as [|c l] eqn:Hk; simpl in *;
    exact H.
Qed.

(** X13. A configuration without filter specs cannot build a handler,
    whatever its other field: [New] returns no handler, the error
    [no valid filters. disabling] and logs nothing.  The configuration
    [CreateConfig] returns is such a one. *)
Theorem New_without_filters_fails
  (engine : RegexpEngine) (next : Handler) (config : Config) (name : string) :
  Filters config = [] ->
  New next config name = (None, Some "no valid filters. disabling", []).
Proof. intros H. unfold New. by rewrite H. Qed.

Lemma New_without_filters_fails_witness :
  New Return CreateConfig "subfilter" =
    (None, Some "no valid filters. disabling", []).
Proof.
  apply (New_without_filters_fails backtrack_engine Return CreateConfig
           "subfilter").
  reflexivity.
Defined.
